(** * gocomet: routing trie, session actor, identity pool and server

    A shallow embedding of the Go sources of gocomet
    (router.go, session.go, server.go).  Go maps are modelled as stdpp
    [gmap]s; a [range] loop over a Go map iterates [map_to_list] of the
    map, one of the orders the Go runtime may choose.  Pointers are
    addresses into an explicit heap; a panic of the Go program is an
    explicit outcome. *)

From Stdlib Require Import String Ascii ZArith Lia.
From stdpp Require Import base gmap strings list fin_maps.

Open Scope string_scope.

(** stdpp makes [String.append] opaque to [simpl]; the proofs below
    compute with it. *)
#[global] Arguments String.append : simpl nomatch.

(* ------------------------------------------------------------------ *)
(** ** Go string helpers *)

Module GoStrings.

(** [strings.Index(s, string(c))] for a one-byte needle; [None] is -1. *)
Fixpoint Index (s : string) (c : ascii) : option nat :=
  match s with
  | EmptyString => None
  | String a s' =>
      if Ascii.eqb a c then Some 0
      else match Index s' c with Some n => Some (S n) | None => None end
  end.

(** [strings.Contains(s, string(c))]. *)
Definition Contains (s : string) (c : ascii) : bool :=
  match Index s c with Some _ => true | None => false end.

(** [strings.HasPrefix(s, p)]. *)
Definition HasPrefix (s p : string) : bool := String.prefix p s.

(** [s[:n]] and [s[n:]]. *)
Definition sliceTo (s : string) (n : nat) : string := substring 0 n s.
Definition sliceFrom (s : string) (n : nat) : string :=
  substring n (String.length s - n) s.

End GoStrings.

Import GoStrings.

Definition star : ascii := "*"%char.
Definition slash : ascii := "/"%char.
Definition comma : ascii := ","%char.

(* ------------------------------------------------------------------ *)
(** ** Router (router.go, the id-returning version) *)

Module RouterModel.

(** [type Router struct { parent; prefix; children; rules }]; the lock is
    not modelled (the model is sequential).  [rules] maps a node-local
    pattern to the map [id -> *Rule]. *)
Record Router := mkRouter {
  parent   : option nat;
  prefix   : string;
  children : gmap string nat;
  rules    : gmap string (gmap string nat)
}.

(** [type Rule struct { router *Router; path string; id string }]. *)
Record Rule := mkRule {
  router : option nat;
  path   : string;
  id     : string
}.

(** The Go heap: routers and rules by address, and the next free address. *)
Record Heap := mkHeap {
  nodes   : gmap nat Router;
  ruleset : gmap nat Rule;
  next    : nat
}.

Definition emptyRouter : Router := mkRouter None "" ∅ ∅.

(** [newRouter()] for the root: a heap holding only the root at 0. *)
Definition newHeap : Heap := mkHeap {[0 := emptyRouter]} ∅ 1.

Definition setNode (h : Heap) (a : nat) (n : Router) : Heap :=
  mkHeap (<[a := n]> (nodes h)) (ruleset h) (next h).

Definition setRule (h : Heap) (a : nat) (x : Rule) : Heap :=
  mkHeap (nodes h) (<[a := x]> (ruleset h)) (next h).

Definition node (h : Heap) (a : nat) : Router :=
  default emptyRouter (nodes h !! a).

Definition ruleId (h : Heap) (a : nat) : string :=
  match ruleset h !! a with Some x => id x | None => "" end.

Definition withChildren (n : Router) (c : gmap string nat) : Router :=
  mkRouter (parent n) (prefix n) c (rules n).
Definition withRules (n : Router) (rs : gmap string (gmap string nat)) : Router :=
  mkRouter (parent n) (prefix n) (children n) rs.

(** [obtainSubRouter(prefix)]: the child for [prefix], created when absent;
    the boolean is [ok] (the child existed). *)
Definition obtainSubRouter (h : Heap) (r : nat) (pre : string) : Heap * nat * bool :=
  let n := node h r in
  match children n !! pre with
  | Some r2 => (h, r2, true)
  | None =>
      let r2 := next h in
      let h1 := mkHeap (<[r2 := mkRouter (Some r) pre ∅ ∅]> (nodes h)) (ruleset h) (S r2) in
      (setNode h1 r (withChildren n (<[pre := r2]> (children n))), r2, false)
  end.

(** [removeRules(rules)]: delete the given keys from this router's rules. *)
Definition removeRules (h : Heap) (r : nat) (ks : list string) : Heap :=
  let n := node h r in
  setNode h r (withRules n (foldl (fun m k => delete k m) (rules n) ks)).

(** [addSimpleRule(path, id)]. *)
Definition addSimpleRule (h : Heap) (r : nat) (p i : string) : Heap * nat :=
  let n := node h r in
  let rs := match rules n !! p with
            | Some _ => rules n
            | None => <[p := ∅]> (rules n)
            end in
  let inner := default ∅ (rs !! p) in
  let h1 := setNode h r (withRules n rs) in
  match inner !! i with
  | Some rule => (h1, rule)
  | None =>
      let a := next h1 in
      let h2 := mkHeap (nodes h1) (<[a := mkRule (Some r) p i]> (ruleset h1)) (S a) in
      let n1 := node h2 r in
      (setNode h2 r (withRules n1 (<[p := <[i := a]> inner]> (rules n1))), a)
  end.

(** [add(path, id)] and, inside it, [moveSimpleRulesMatching(prefix, r2)].
    Every nested call of [add] receives a strictly shorter path than its
    caller, so [fuel] only bounds the recursion depth. *)
Fixpoint add (fuel : nat) (h : Heap) (r : nat) (p i : string) : Heap * nat :=
  match fuel with
  | O => (h, 0)
  | S fuel' =>
      match Index p star with
      | Some (S _ as pos) =>
          let pre := sliceTo p pos in
          let part := sliceFrom p pos in
          let '(h1, r2, exists_) := obtainSubRouter h r pre in
          let h2 :=
            if exists_ then h1
            else
              (* moveSimpleRulesMatching: copy matching simple rules to r2 *)
              let '(h', candidates) :=
                foldl (fun '(hc, cands) (kv : string * gmap string nat) =>
                         let '(rp, rls) := kv in
                         if HasPrefix rp pre then
                           let hc' := foldl (fun hh (iv : string * nat) =>
                                              fst (add fuel' hh r2 (sliceFrom rp pos)
                                                        (ruleId hh iv.2)))
                                            hc (map_to_list rls) in
                           (hc', app cands [rp])
                         else (hc, cands))
                      (h1, []) (map_to_list (rules (node h1 r))) in
              (* r2.removeRules(candidates) *)
              removeRules h' r2 candidates in
          add fuel' h2 r2 part i
      | _ => addSimpleRule h r p i
      end
  end.

(** Total length of the rule keys of the heap, a bound on the depth of
    [add]. *)
Definition weight (h : Heap) : nat :=
  map_fold (fun _ n acc =>
              map_fold (fun k _ a => a + String.length k) acc (rules n))
           0 (nodes h).

Definition router_add (h : Heap) (r : nat) (p i : string) : Heap * nat :=
  add (S (String.length p + weight h)) h r p i.

(** [collectRules(matches, patt)]. *)
Definition collectRules (h : Heap) (r : nat) (matches : list string) (patt : string)
  : list string :=
  match rules (node h r) !! patt with
  | Some rls => foldl (fun ms (iv : string * nat) => app ms [ruleId h iv.2])
                      matches (map_to_list rls)
  | None => matches
  end.

(** The local part of [run(path)]: the literal entry, the ["*"] entry
    when the path has no '/', and the ["**"] entry. *)
Definition localMatches (h : Heap) (r : nat) (p : string) : list string :=
  let m1 := collectRules h r [] p in
  let m2 := if negb (Contains p slash) then collectRules h r m1 "*" else m1 in
  collectRules h r m2 "**".

(** The loop [for prefix, r2 := range r.children] of [run]: [matches] is
    overwritten by every matching child, and the loop breaks on the first
    non-empty answer. *)
Fixpoint tryChildren (sub : nat -> string -> list string) (p : string)
    (cs : list (string * nat)) (matches : list string) : list string :=
  match cs with
  | [] => matches
  | (pre, r2) :: cs' =>
      if HasPrefix p pre then
        match sub r2 (sliceFrom p (String.length pre)) with
        | [] => tryChildren sub p cs' []
        | ms => ms
        end
      else tryChildren sub p cs' matches
  end.

(** [run(path)]. *)
Fixpoint run (fuel : nat) (h : Heap) (r : nat) (p : string) : list string :=
  match fuel with
  | O => []
  | S fuel' =>
      match localMatches h r p with
      | [] => tryChildren (run fuel' h) p (map_to_list (children (node h r))) []
      | ms => ms
      end
  end.

(** Resolution from a node; a trie path is at most as long as the number
    of nodes. *)
Definition resolve (h : Heap) (r : nat) (p : string) : list string :=
  run (S (size (nodes h))) h r p.

(** [removeRule(rule)]: delete [rule.id] from [rules[rule.path]] (the key
    itself stays, possibly with an empty map). *)
Definition removeRule (h : Heap) (r : nat) (x : Rule) : Heap :=
  let n := node h r in
  match rules n !! path x with
  | Some rls => setNode h r (withRules n (<[path x := delete (id x) rls]> (rules n)))
  | None => h
  end.

Definition hasSubRouters (h : Heap) (r : nat) : bool :=
  negb (bool_decide (children (node h r) = ∅)).

(** [hasWildcardRules()]: looks at the presence of the keys ["*"] and
    ["**"] only. *)
Definition hasWildcardRules (h : Heap) (r : nat) : bool :=
  match rules (node h r) !! "*" with
  | Some _ => true
  | None => match rules (node h r) !! "**" with Some _ => true | None => false end
  end.

Definition removeSubRouter (h : Heap) (r : nat) (pre : string) : Heap :=
  let n := node h r in
  setNode h r (withChildren n (delete pre (children n))).

(** [minify()]: merge a router without children and without wildcard keys
    into its parent.  As in the source, the inner loop
    [for path, rule := range rules] binds [path] to the key of the map
    [id -> *Rule]. *)
Definition minify (h : Heap) (r : nat) : Heap :=
  let n := node h r in
  match parent n with
  | None => h
  | Some par =>
      if hasSubRouters h r || hasWildcardRules h r then h
      else
        let h' :=
          foldl (fun hh (kv : string * gmap string nat) =>
                   foldl (fun hh' (iv : string * nat) =>
                            let '(path0, rule) := iv in
                            let h1 := fst (router_add hh' par (prefix n ++ path0)
                                                     (ruleId hh' rule)) in
                            match ruleset h1 !! rule with
                            | Some x => setRule h1 rule (mkRule None (path x) (id x))
                            | None => h1
                            end)
                         hh (map_to_list kv.2))
                h (map_to_list (rules n)) in
        removeSubRouter h' par (prefix n)
  end.

(** [Rule.remove()]; [None] is the nil-pointer panic of a rule whose
    router was cleared by a merge. *)
Definition remove (h : Heap) (a : nat) : option Heap :=
  match ruleset h !! a with
  | Some x =>
      match router x with
      | Some r =>
          let h1 := removeRule h r x in
          Some (if HasPrefix (path x) "*" then minify h1 r else h1)
      | None => None
      end
  | None => None
  end.

End RouterModel.

(* ------------------------------------------------------------------ *)
(** ** Session actor (session.go) *)

Module SessionModel.

(** [type Message struct { channel, data string }]; a [*Message] sent by
    the broker is never nil, a pushed-back one may be. *)
Record Message := mkMessage { channel : string; data : string }.

(** A Go channel of [*Message]: the values it still holds and whether it
    has been closed.  A send to an unbuffered channel is modelled as an
    append that the receiver later takes. *)
Record Chan := mkChan { buf : list Message; closed : bool }.

(** The variables of the actor goroutine of [newSession], with the
    channels it created.  [cleanupSpawned] records [go cleanup()]. *)
Record Session := mkSession {
  mailbox        : list Message;
  output         : option nat;
  isRunning      : bool;
  chans          : gmap nat Chan;
  nextChan       : nat;
  cleanupSpawned : bool
}.

Definition MAILBOX_SIZE : nat := 1000.

(** The package-level [closedChannel], created closed. *)
Definition closedChannel : nat := 0.

Definition newSession : Session :=
  mkSession [] None true {[closedChannel := mkChan [] true]} 1 false.

(** The cases of the actor's [select]. *)
Inductive Event :=
| Upstream (m : Message)              (* msg := <-input *)
| ChannelReq (isConnect : bool)       (* isConnect := <-channelReq *)
| ChannelTimeout (m : option Message) (* msg := <-channelTimeout *)
| ChannelClose                        (* <-channelClose *)
| IdleTimeout.                        (* <-time.After(MAX_SESSION_IDEL) *)

(** One iteration of the loop: the new state and the value sent on
    [channelResp], a Go panic, or a request to an actor that has left its
    loop (the sender blocks forever). *)
Inductive Outcome :=
| Next (s : Session) (resp : option nat)
| Panic (msg : string)
| Blocked.

Definition setMailbox (s : Session) (mb : list Message) : Session :=
  mkSession mb (output s) (isRunning s) (chans s) (nextChan s) (cleanupSpawned s).
Definition setOutput (s : Session) (o : option nat) : Session :=
  mkSession (mailbox s) o (isRunning s) (chans s) (nextChan s) (cleanupSpawned s).
Definition setChans (s : Session) (cs : gmap nat Chan) : Session :=
  mkSession (mailbox s) (output s) (isRunning s) cs (nextChan s) (cleanupSpawned s).
Definition stopLoop (s : Session) : Session :=
  mkSession (mailbox s) (output s) false (chans s) (nextChan s) true.

(** [convertMailboxToChannel(mailbox)]: a fresh channel holding the
    mailbox (unbuffered when the mailbox is empty); the mailbox is
    emptied ([mailbox.Init()]). *)
Definition convertMailboxToChannel (s : Session) : Session * nat :=
  let c := nextChan s in
  (mkSession [] (output s) (isRunning s) (<[c := mkChan (mailbox s) false]> (chans s))
             (S c) (cleanupSpawned s), c).

(** [close(ch)]: a panic on a nil or already closed channel. *)
Definition closeChan (s : Session) (oc : option nat) : option Session :=
  match oc with
  | None => None
  | Some c =>
      match chans s !! c with
      | Some ch => if closed ch then None
                   else Some (setChans s (<[c := mkChan (buf ch) true]> (chans s)))
      | None => None
      end
  end.

(** The body of the [select] in [newSession]. *)
Definition step (s : Session) (ev : Event) : Outcome :=
  if negb (isRunning s) then Blocked else
  match ev with
  | Upstream msg =>
      match output s with
      | None =>
          let mb := app (mailbox s) [msg] in
          Next (setMailbox s (if Nat.ltb MAILBOX_SIZE (length mb) then tl mb else mb)) None
      | Some c =>
          match chans s !! c with
          | Some ch =>
              if closed ch then Panic "send on closed channel"
              else Next (setChans s (<[c := mkChan (app (buf ch) [msg]) false]> (chans s))) None
          | None => Blocked
          end
      end
  | ChannelReq isConnect =>
      match output s with
      | None =>
          let '(s1, ch) := convertMailboxToChannel s in
          if isConnect then Next (setOutput s1 (Some ch)) (Some ch)
          else match closeChan s1 (Some ch) with
               | Some s2 => Next s2 (Some ch)
               | None => Panic "close of closed channel"
               end
      | Some _ => Next s (Some closedChannel)
      end
  | ChannelTimeout msg =>
      let s1 := match msg with
                | Some m => setMailbox s (m :: mailbox s)
                | None => s
                end in
      match closeChan s1 (output s1) with
      | Some s2 => Next (setOutput s2 None) None
      | None => Panic "close of nil channel"
      end
  | ChannelClose =>
      let s1 := stopLoop s in
      match (match output s1 with
             | Some c => closeChan s1 (Some c)
             | None => Some s1
             end) with
      | None => Panic "close of closed channel"
      | Some s2 =>
          let '(s3, ch) := convertMailboxToChannel (setOutput s2 None) in
          match closeChan s3 (Some ch) with
          | Some s4 => Next s4 (Some ch)
          | None => Panic "close of closed channel"
          end
      end
  | IdleTimeout =>
      let s1 := stopLoop s in
      match closeChan s1 (output s1) with
      | Some s2 => Next (setOutput s2 None) None
      | None => Panic "close of nil channel"
      end
  end.

(** A receive [<-c] by a poller that gets a value. *)
Definition recv (s : Session) (c : nat) : option (Message * Session) :=
  match chans s !! c with
  | Some (mkChan (m :: rest) cl) => Some (m, setChans s (<[c := mkChan rest cl]> (chans s)))
  | _ => None
  end.

(** The states the actor can reach from [newSession]: loop iterations and
    receives by pollers. *)
Inductive reachable : Session -> Prop :=
| reach_init : reachable newSession
| reach_step s ev s' r : reachable s -> step s ev = Next s' r -> reachable s'
| reach_recv s c m s' : reachable s -> recv s c = Some (m, s') -> reachable s'.

(** Feeding upstream events one after the other. *)
Fixpoint feed (s : Session) (ms : list Message) : Outcome :=
  match ms with
  | [] => Next s None
  | m :: ms' =>
      match step s (Upstream m) with
      | Next s' _ => feed s' ms'
      | o => o
      end
  end.

End SessionModel.

(* ------------------------------------------------------------------ *)
(** ** The identity pool (UniqueStringPool in session.go) *)

Module PoolModel.

Definition MAX_ID_GEN_RETRY : nat := 100.

(** [30 * time.Minute], in nanoseconds. *)
Definition MAX_ID_KEPT_TIME : Z := 30 * 60 * 1000000000.

(** A [*list.Element] holding a [timeAndValue]; [eid] is its identity. *)
Record Elem := mkElem { eid : nat; evalue : string; expire : Z }.

(** [values] maps an id to the identity of its element; [order] is the
    [list.List]; [nextElem] numbers fresh elements. *)
Record Pool := mkPool {
  values   : gmap string nat;
  order    : list Elem;
  nextElem : nat
}.

Definition emptyPool : Pool := mkPool ∅ [] 0.

(** The retry loop of [get]: the generator is the sequence of values
    that [pool.newValue()] returns call after call.  The result is the
    final [value], the final [limit] and the number of calls made. *)
Fixpoint genLoop (gen : nat -> string) (vals : gmap string nat)
         (calls limit : nat) (value : string) : string * nat * nat :=
  match limit with
  | O => (value, O, calls)
  | S l =>
      let v := gen calls in
      match vals !! v with
      | None => (v, limit, S calls)
      | Some _ => genLoop gen vals (S calls) l v
      end
  end.

(** The sweep of [get]: [list.Remove] clears [e.next], so the loop stops
    after the first removal. *)
Definition sweep (now : Z) (o : list Elem) : list Elem :=
  match o with
  | [] => []
  | e :: rest => if Z.ltb now (expire e) then o else rest
  end.

(** [get]: the new pool, the value, whether [err] was set, and the
    number of generator calls. *)
Definition get (pool : Pool) (gen : nat -> string) (now : Z)
  : Pool * string * bool * nat :=
  let '(value, limit, calls) := genLoop gen (values pool) 0 MAX_ID_GEN_RETRY "" in
  let err := Nat.eqb limit 0 in
  let e := mkElem (nextElem pool) value (now + MAX_ID_KEPT_TIME) in
  let o := sweep now (app (order pool) [e]) in
  (mkPool (<[value := nextElem pool]> (values pool)) o (S (nextElem pool)),
   value, err, calls).

(** [touch]: move the element to the back with a fresh expiry. *)
Definition touch (pool : Pool) (value : string) (now : Z) : Pool * bool :=
  match values pool !! value with
  | Some e =>
      let o := filter (fun x => eid x <> e) (order pool) in
      let ne := nextElem pool in
      (mkPool (<[value := ne]> (values pool))
              (app o [mkElem ne value (now + MAX_ID_KEPT_TIME)]) (S ne), true)
  | None => (pool, false)
  end.


End PoolModel.

(* ------------------------------------------------------------------ *)
(** ** The server coordinator (server.go) *)

Module ServerModel.

Import RouterModel SessionModel PoolModel.

(** Modelled from the spec: the broker's source file is not part of the
    sources.  It keeps the registered clients, each client's subscriptions
    (channel to rule handle) and its router, whose root is node 0. *)
Record Broker := mkBroker {
  clients       : gmap string unit;
  subscriptions : gmap string (gmap string nat);
  brouter       : Heap
}.

(** Modelled from the spec: [subscribe(id, channel)] is a no-op for an
    unknown id and otherwise installs [Router.add(channel, id)] and
    records the handle. *)
Definition broker_subscribe (b : Broker) (cid ch : string) : Broker :=
  match clients b !! cid with
  | None => b
  | Some _ =>
      let '(h', rule) := router_add (brouter b) 0 ch cid in
      let subs := default ∅ (subscriptions b !! cid) in
      mkBroker (clients b) (<[cid := <[ch := rule]> subs]> (subscriptions b)) h'
  end.

Record Server := mkServer {
  names    : Pool;
  sessions : gmap string Session;
  broker   : Broker
}.

(** A verb's outcome: a panic with the state at that moment, the result
    [(ch, ok)] with the new state, or a send to a session that has left
    its loop. *)
Inductive SOutcome :=
| SPanic (msg : string) (st : Server)
| SReturn (st : Server) (ch : option nat) (ok : bool)
| SBlocked.

(** [ss.obtainChannel(isConnect)] on the session stored under [cid]. *)
Definition obtainChannel (st : Server) (cid : string) (ss : Session)
           (isConnect : bool) : SOutcome :=
  match step ss (ChannelReq isConnect) with
  | Next ss' r =>
      SReturn (mkServer (names st) (<[cid := ss']> (sessions st)) (broker st)) r true
  | Panic m => SPanic m st
  | Blocked => SBlocked
  end.

(** The method [subscribe] of [Server]. *)
Definition subscribe (st : Server) (now : Z) (cid subscription : string)
  : SOutcome :=
  if Contains subscription comma then SPanic "not supported yet" st else
  let '(names', ok) := touch (names st) cid now in
  let st1 := mkServer names' (sessions st) (broker st) in
  if negb ok then SReturn st1 None false else
  let st2 := mkServer names' (sessions st) (broker_subscribe (broker st) cid subscription) in
  match sessions st2 !! cid with
  | Some ss => obtainChannel st2 cid ss false
  | None => SReturn st2 None false
  end.

End ServerModel.

(* ------------------------------------------------------------------ *)
(** ** Queries and concrete configurations used by the statements *)

Module RouterQueries.

Import RouterModel.

(** Where [add(p, id)] finds an existing rule: the descent of [add]
    through existing children, then the entry [rules[p][id]] of the node
    reached. *)
Fixpoint findRuleF (fuel : nat) (h : Heap) (r : nat) (p i : string) : option nat :=
  match fuel with
  | O => None
  | S f =>
      match Index p star with
      | Some (S _ as pos) =>
          match children (node h r) !! sliceTo p pos with
          | Some r2 => findRuleF f h r2 (sliceFrom p pos) i
          | None => None
          end
      | _ =>
          match nodes h !! r with
          | Some n => match rules n !! p with Some inner => inner !! i | None => None end
          | None => None
          end
      end
  end.

Definition findRule (h : Heap) (r : nat) (p i : string) : option nat :=
  findRuleF (S (String.length p)) h r p i.

(** The heap built by [add(p ++ w, i)] on a fresh router, for a prefix
    [p] without '*' and a pattern [w] starting with '*'. *)
Definition wildHeap (p w i : string) : Heap :=
  mkHeap (<[1 := mkRouter (Some 0) p ∅ {[w := {[i := 2]}]}]>
            {[0 := mkRouter None "" {[p := 1]} ∅]})
         {[2 := mkRule (Some 1) w i]} 3.

(** [add("/foo/*", "c1")]. *)
Definition fooStar : Heap * nat := router_add newHeap 0 "/foo/*" "c1".

(** [add("/foo/*", "c1"); add("/foo/bar", "c2")]. *)
Definition fooStarBar : Heap := fst (router_add (fst fooStar) 0 "/foo/bar" "c2").

(** [add("/a/x", "c2"); add("/a/*/b", "c1")]: the heap and the handle of
    the second rule. *)
Definition mergeBefore : Heap * nat :=
  router_add (fst (router_add newHeap 0 "/a/x" "c2")) 0 "/a/*/b" "c1".

(** Every rule handle stored in a node's rules is below the next free
    address, as for the heaps built by [add]. *)
Definition handlesBelowNext (h : Heap) : bool :=
  forallb (fun an : nat * Router =>
    forallb (fun km : string * gmap string nat =>
      forallb (fun jx : string * nat => Nat.ltb jx.2 (next h)) (map_to_list km.2))
      (map_to_list (rules an.2)))
    (map_to_list (nodes h)).

End RouterQueries.

Module SessionFacts.

Import SessionModel.

(** The invariant of the actor's reachable states. *)
Definition inv (s : Session) : Prop :=
  chans s !! closedChannel = Some (mkChan [] true) /\
  (forall c ch, chans s !! c = Some ch -> c < nextChan s) /\
  (forall c, output s = Some c ->
     c <> closedChannel /\ isRunning s = true /\ mailbox s = [] /\
     exists b, chans s !! c = Some (mkChan b false)) /\
  length (mailbox s) <= MAILBOX_SIZE.

Definition msgA : Message := mkMessage "/a" "x".
Definition msgB : Message := mkMessage "/a" "y".

Definition afterOutcome (o : Outcome) : Session :=
  match o with Next s _ => s | _ => newSession end.

(** A session with a connect poller attached. *)
Definition connectedSession : Session :=
  afterOutcome (step newSession (ChannelReq true)).

(** A session whose mailbox is full. *)
Definition fullSession : Session :=
  afterOutcome (feed newSession (repeat msgA MAILBOX_SIZE)).

(** A session without a poller whose mailbox holds [msgA] then [msgB]. *)
Definition twoMsgSession : Session :=
  afterOutcome (feed newSession [msgA; msgB]).

(** A released session ([msgB] pushed back) that then receives
    [MAILBOX_SIZE] upstream events before the next connect. *)
Definition releasedFlooded : Session :=
  afterOutcome (feed (afterOutcome (step connectedSession (ChannelTimeout (Some msgB))))
                     (repeat msgA MAILBOX_SIZE)).

End SessionFacts.

Module ScenarioData.

Import PoolModel ServerModel.

(** The pool after one [get] whose generator always answers "a". *)
Definition poolA : Pool := fst (fst (fst (get emptyPool (fun _ => "a") 0))).

(** Modelled from the spec: [newBroker()], with no client. *)
Definition emptyBroker : Broker := mkBroker ∅ ∅ RouterModel.newHeap.

Definition emptyServer : Server := mkServer emptyPool ∅ emptyBroker.

End ScenarioData.

(* ------------------------------------------------------------------ *)
(** ** Server verbs and the broker of message_test.go *)

Module SessionMoreFacts.

(** The last [k] entries of [l]. *)
Definition lastN {A} (k : nat) (l : list A) : list A := skipn (length l - k) l.

End SessionMoreFacts.

Module ServerVerbs.

Import RouterModel SessionModel PoolModel ServerModel.

(** The method [connect] of [Server] (second variant). *)
Definition connect (st : Server) (now : Z) (cid : string) : SOutcome :=
  let '(names', ok) := touch (names st) cid now in
  let st1 := mkServer names' (sessions st) (broker st) in
  if negb ok then SReturn st1 None false else
  match sessions st1 !! cid with
  | Some ss => obtainChannel st1 cid ss true
  | None => SReturn st1 None false
  end.

(** The method [disconnect] of [Server]: the session is deleted from
    [sessions], then [ss.close()] answers the returned channel. *)
Definition disconnect (st : Server) (now : Z) (cid : string) : SOutcome :=
  let '(names', ok) := touch (names st) cid now in
  let st1 := mkServer names' (sessions st) (broker st) in
  if negb ok then SReturn st1 None false else
  match sessions st1 !! cid with
  | Some ss =>
      let st2 := mkServer names' (delete cid (sessions st1)) (broker st) in
      match step ss ChannelClose with
      | Next _ r => SReturn st2 r true
      | Panic m => SPanic m st2
      | Blocked => SBlocked
      end
  | None => SReturn st1 None false
  end.

Section BrokerOps.

(** The broker's source is not in the repository: its [unsubscribe]
    (new broker and [ok]) and [broadcast] are parameters here. *)
Variable broker_unsubscribe : Broker -> string -> string -> Broker * bool.
Variable broker_broadcast : Broker -> string -> string -> Broker.

(** The method [unsubscribe] of [Server]. *)
Definition unsubscribe (st : Server) (now : Z) (cid subscription : string) : SOutcome :=
  let '(names', ok) := touch (names st) cid now in
  let st1 := mkServer names' (sessions st) (broker st) in
  if negb ok then SReturn st1 None false else
  let '(b', ok2) := broker_unsubscribe (broker st) cid subscription in
  let st2 := mkServer names' (sessions st) b' in
  if negb ok2 then SReturn st2 None false else
  match sessions st2 !! cid with
  | Some ss => obtainChannel st2 cid ss false
  | None => SReturn st2 None false
  end.

(** The method [publish] of [Server]. *)
Definition publish (st : Server) (now : Z) (cid channel data : string) : SOutcome :=
  let '(names', ok) := touch (names st) cid now in
  let st1 := mkServer names' (sessions st) (broker st) in
  if negb ok then SReturn st1 None false else
  let st2 := mkServer names' (sessions st) (broker_broadcast (broker st) channel data) in
  match sessions st2 !! cid with
  | Some ss => obtainChannel st2 cid ss false
  | None => SReturn st2 None false
  end.

End BrokerOps.

Section Handshake.

(** The broker's [register] is not in the repository: a parameter here.
    The router output it returns is not part of the session model. *)
Variable broker_register : Broker -> string -> Broker.

(** The method [handshake] of [Server]: [c.names.get()], then, whatever
    [err] is, [c.broker.register(clientId)] and a new session stored under
    [clientId].  [gen] and [now] are the inputs of [get]. *)
Definition handshake (st : Server) (gen : nat -> string) (now : Z) : Server * string * bool :=
  let '(names', clientId, err, _) := get (names st) gen now in
  (mkServer names' (<[clientId := newSession]> (sessions st))
            (broker_register (broker st) clientId), clientId, err).

End Handshake.

End ServerVerbs.

Module SimpleBrokerModel.

Import RouterModel.

(** [type SimpleMessage struct { channel, data string }]. *)
Record SimpleMessage := mkSimpleMessage { schannel : string; sdata : string }.

(** A [chan *SimpleMessage]: the values handed to its receiver and
    whether it has been closed. *)
Record SChan := mkSChan { sbuf : list SimpleMessage; sclosed : bool }.

(** [type Broker struct { clients; router; rules }] with the channels it
    created, by address. *)
Record Broker := mkBroker {
  clients : gmap string nat;
  brouter : Heap;
  brules  : gmap string (gmap string nat);
  bchans  : gmap nat SChan;
  nextCh  : nat
}.

(** The result of a broker method: the new broker, a Go panic, or a send
    that blocks forever. *)
Inductive BOutcome :=
| BNext (b : Broker)
| BPanic (msg : string)
| BBlocked.

Definition newBroker : Broker := mkBroker ∅ newHeap ∅ ∅ 0.

(** [register(clientId)]. *)
Definition register (b : Broker) (cid : string) : Broker * nat :=
  match clients b !! cid with
  | Some ch => (b, ch)
  | None =>
      let ch := nextCh b in
      (mkBroker (<[cid := ch]> (clients b)) (brouter b) (<[cid := ∅]> (brules b))
                (<[ch := mkSChan [] false]> (bchans b)) (S ch), ch)
  end.

(** [deregister(clientId)]; a client's channel is always allocated, the
    last case does not occur. *)
Definition deregister (b : Broker) (cid : string) : BOutcome :=
  match clients b !! cid with
  | Some ch =>
      match bchans b !! ch with
      | Some c =>
          if sclosed c then BPanic "close of closed channel"
          else BNext (mkBroker (delete cid (clients b)) (brouter b) (delete cid (brules b))
                               (<[ch := mkSChan (sbuf c) true]> (bchans b)) (nextCh b))
      | None => BPanic "close of nil channel"
      end
  | None => BNext (mkBroker (clients b) (brouter b) (delete cid (brules b)) (bchans b) (nextCh b))
  end.

(** [subscribe(clientId, channel)]; the assignment into a nil inner map
    panics. *)
Definition subscribe (b : Broker) (cid channel : string) : BOutcome :=
  match clients b !! cid with
  | None => BNext b
  | Some _ =>
      let '(h', rule) := router_add (brouter b) 0 channel cid in
      match brules b !! cid with
      | Some m => BNext (mkBroker (clients b) h' (<[cid := <[channel := rule]> m]> (brules b))
                                  (bchans b) (nextCh b))
      | None => BPanic "assignment to entry in nil map"
      end
  end.

(** [unsubscribe(clientId, channel)]; [rule.remove()] panics on a rule
    whose router is nil. *)
Definition unsubscribe (b : Broker) (cid channel : string) : BOutcome :=
  match clients b !! cid with
  | None => BNext b
  | Some _ =>
      match brules b !! cid with
      | Some m =>
          match m !! channel with
          | Some rule =>
              match remove (brouter b) rule with
              | Some h' => BNext (mkBroker (clients b) h' (<[cid := delete channel m]> (brules b))
                                           (bchans b) (nextCh b))
              | None => BPanic "invalid memory address or nil pointer dereference"
              end
          | None => BNext b
          end
      | None => BNext b
      end
  end.

(** [send(client, msg)]: [clients[client]] is nil for an unknown client
    and a send on a nil channel blocks forever. *)
Definition send (b : Broker) (c : string) (msg : SimpleMessage) : BOutcome :=
  match clients b !! c with
  | None => BBlocked
  | Some ch =>
      match bchans b !! ch with
      | Some sc =>
          if sclosed sc then BPanic "send on closed channel"
          else BNext (mkBroker (clients b) (brouter b) (brules b)
                               (<[ch := mkSChan (app (sbuf sc) [msg]) false]> (bchans b)) (nextCh b))
      | None => BBlocked
      end
  end.

(** The loop of [broadcast] over the matched clients. *)
Fixpoint sendAll (b : Broker) (cs : list string) (msg : SimpleMessage) : BOutcome :=
  match cs with
  | [] => BNext b
  | c :: cs' =>
      match send b c msg with
      | BNext b' => sendAll b' cs' msg
      | o => o
      end
  end.

(** [broadcast(channel, msg)]: the clients are those [router.run(channel)]
    returns at the start. *)
Definition broadcast (b : Broker) (channel msg : string) : BOutcome :=
  sendAll b (resolve (brouter b) 0 channel) (mkSimpleMessage channel msg).

End SimpleBrokerModel.

Module MoreScenarios.
Import SessionModel PoolModel ServerModel ScenarioData SimpleBrokerModel.

(** [register("client"); subscribe("client", "/foo/bar")] on [newBroker()]. *)
Definition tbSubscribed : Broker :=
  match SimpleBrokerModel.subscribe (fst (register newBroker "client")) "client" "/foo/bar" with
  | BNext b => b
  | _ => newBroker
  end.

(** The same broker after [deregister("client")]. *)
Definition tbDeregistered : Broker :=
  match deregister tbSubscribed "client" with BNext b => b | _ => newBroker end.

(** A server whose pool holds "a", with a fresh session under "a". *)
Definition serverA : Server := mkServer poolA {["a" := newSession]} emptyBroker.

(** [serverA] after [disconnect("a")]. *)
Definition serverAGone : Server :=
  match ServerVerbs.disconnect serverA 0 "a" with SReturn st _ _ => st | _ => serverA end.

End MoreScenarios.

Module RouterString.

Import GoStrings RouterModel.

(** [Rule.String()]: the prefixes of the routers from the root down to
    the rule's router, then the rule's path. *)
Fixpoint prefixChain (fuel : nat) (h : Heap) (r : option nat) : string :=
  match fuel, r with
  | S f, Some a => prefixChain f h (parent (node h a)) ++ prefix (node h a)
  | _, _ => ""
  end.

(** A handle without a rule in [ruleset] yields the empty string. *)
Definition ruleString (h : Heap) (a : nat) : string :=
  match ruleset h !! a with
  | Some x => prefixChain (next h) h (router x) ++ path x
  | None => ""
  end.

(** [a] hangs in the tree: the root, or the child of its parent under
    its own prefix.  [removeSubRouter] detaches a merged router while its
    rules map stays. *)
Definition attached (h : Heap) (a : nat) : Prop :=
  match parent (node h a) with
  | None => True
  | Some p => children (node h p) !! prefix (node h a) = Some a
  end.

(** An entry [k -> .. -> x] of the rules of router [a] names a rule with
    path [k] whose router is [a], or whose router was cleared by
    [minify]: then [a] is detached, or [a] is [ex], the router being
    merged. *)
Definition ruleOK (ex : option nat) (h : Heap) (a : nat) (k : string) (x : nat) : Prop :=
  exists y, ruleset h !! x = Some y /\ path y = k /\
    (router y = Some a \/ (router y = None /\ (ex = Some a \/ ~ attached h a))).

(** The shape the router heap keeps: every node and rule is below
    [next], a parent has a smaller handle than its child, the children
    map of a node points back to it under the child's prefix, and each
    entry of a rules map satisfies [ruleOK]. *)
Record TreeInv (ex : option nat) (h : Heap) : Prop := {
  t_below : forall a n, nodes h !! a = Some n -> a < next h;
  t_parent : forall a n b, nodes h !! a = Some n -> parent n = Some b ->
               b < a /\ is_Some (nodes h !! b);
  t_child : forall a n k c, nodes h !! a = Some n -> children n !! k = Some c ->
               exists m, nodes h !! c = Some m /\ parent m = Some a /\ prefix m = k;
  t_rule : forall a n k m j x, nodes h !! a = Some n -> rules n !! k = Some m -> m !! j = Some x ->
               x < next h /\ ruleOK ex h a k x;
  t_rs_below : forall x y, ruleset h !! x = Some y -> x < next h
}.

(** [h'] keeps every node of [h] with its parent and prefix. *)
Definition NodesKept (h h' : Heap) : Prop :=
  forall a n, nodes h !! a = Some n ->
    exists n', nodes h' !! a = Some n' /\ parent n' = parent n /\ prefix n' = prefix n.

(** What [add] keeps: the nodes, the rules, and which old nodes are
    attached. *)
Record Ext (h h' : Heap) : Prop := {
  e_node : NodesKept h h';
  e_rule : forall x y, ruleset h !! x = Some y -> ruleset h' !! x = Some y;
  e_att : forall a, is_Some (nodes h !! a) -> (attached h' a <-> attached h a)
}.

(** The heaps a program builds from [newRouter()] with [Add] at the root
    and [Rule.Remove]. *)
Inductive routerReach : Heap -> Prop :=
| rr_new : routerReach newHeap
| rr_add h p i : routerReach h -> routerReach (fst (router_add h 0 p i))
| rr_remove h a h' : routerReach h -> remove h a = Some h' -> routerReach h'.

(** Add [/a/x], add [/a/*/b], then remove the wildcard rule: [minify]
    merges the sub-router [/a/] back into the root and detaches it, and
    the copy of [x] left in its rules map has no router. *)
Definition rh1 : Heap := fst (router_add newHeap 0 "/a/x" "1").
Definition rh2 : Heap * nat := router_add rh1 0 "/a/*/b" "2".
Definition rh3 : Heap := match remove (fst rh2) (snd rh2) with Some h => h | None => newHeap end.

End RouterString.

(* ================================================================== *)
(** * Theorems *)

Module RouterProofs.

Import RouterModel RouterQueries.

Lemma Index_app_None p s c : Index p c = None ->
  Index (p ++ s) c = option_map (fun k => String.length p + k) (Index s c).
Proof.
  induction p as [|a p IH]; simpl; intros H.
  - destruct (Index s c); reflexivity.
  - destruct (Ascii.eqb a c); [discriminate|].
    destruct (Index p c) eqn:E; [discriminate|]. rewrite IH by reflexivity.
    destruct (Index s c); reflexivity.
Qed.

Lemma length_app (p s : string) : String.length (p ++ s) = String.length p + String.length s.
Proof. induction p; simpl; auto. Qed.

Lemma substring_full (s : string) : substring 0 (String.length s) s = s.
Proof. induction s; simpl; congruence. Qed.

Lemma sliceTo_app p s : sliceTo (p ++ s) (String.length p) = p.
Proof. unfold sliceTo. induction p as [|a p IH]; simpl; [destruct s; reflexivity| rewrite IH; reflexivity]. Qed.

Lemma sliceFrom_app p s : sliceFrom (p ++ s) (String.length p) = s.
Proof.
  unfold sliceFrom. rewrite length_app.
  replace (String.length p + String.length s - String.length p) with (String.length s) by lia.
  induction p as [|a p IH]; simpl; [apply substring_full| exact IH].
Qed.

Lemma HasPrefix_app p s : HasPrefix (p ++ s) p = true.
Proof. unfold HasPrefix. induction p as [|a p IH]; simpl; [destruct s; reflexivity|].
  destruct (ascii_dec a a); [exact IH| congruence]. Qed.

Lemma add_fresh_wild p w i : p <> "" -> Index p star = None -> Index w star = Some 0 ->
  router_add newHeap 0 (p ++ w) i = (wildHeap p w i, 2).
Proof.
  intros Hp Hi Hw. unfold router_add.
  assert (exists n, String.length p = S n) as [n Hn] by (destruct p; [congruence| simpl; eauto]).
  rewrite length_app, Hn. 
  cbn [add]. rewrite (Index_app_None _ _ _ Hi), Hw. simpl option_map.
  rewrite <- plus_n_O, Hn. rewrite <- Hn. rewrite sliceTo_app, sliceFrom_app.
  unfold obtainSubRouter. 
  replace (node newHeap 0) with emptyRouter by reflexivity.
  cbn [children emptyRouter]. rewrite lookup_empty.
  cbn [next newHeap].
  set (h1 := setNode _ 0 _).
  replace (map_to_list (rules (node h1 0))) with (@nil (string * gmap string nat)).
  2:{ unfold h1, node, setNode. cbn [nodes]. rewrite lookup_insert_eq. simpl. reflexivity. }
  cbn [foldl].
  replace (weight newHeap) with 0 by reflexivity.
  destruct (String.length w) as [|k] eqn:Hk; [destruct w; simpl in *; discriminate|].
  rewrite <- plus_n_O, Nat.add_succ_r. cbn [add]. rewrite Hw.
  unfold addSimpleRule, removeRules, h1, node, setNode, withRules, withChildren, wildHeap, newHeap.
  cbn [nodes ruleset next foldl rules children parent prefix emptyRouter].
  simplify_map_eq /=.
  rewrite !insert_insert_eq, !insert_empty.
  reflexivity.
Qed.

Lemma run_S fuel h r q :
  run (S fuel) h r q =
  match localMatches h r q with
  | [] => tryChildren (run fuel h) q (map_to_list (children (node h r))) []
  | ms => ms
  end.
Proof. reflexivity. Qed.

Lemma run_leaf fuel h r q : children (node h r) = ∅ ->
  run (S fuel) h r q = localMatches h r q.
Proof.
  intros Hc. rewrite run_S, Hc, map_to_list_empty.
  destruct (localMatches _ _ _); reflexivity.
Qed.

Lemma collect_wild_root p w i m k : collectRules (wildHeap p w i) 0 m k = m.
Proof. unfold collectRules. reflexivity. Qed.

Lemma resolve_wildHeap p w i f :
  resolve (wildHeap p w i) 0 (p ++ f) = localMatches (wildHeap p w i) 1 f.
Proof.
  unfold resolve. replace (size (nodes (wildHeap p w i))) with 2 by reflexivity.
  rewrite run_S. unfold localMatches at 1. rewrite !collect_wild_root.
  destruct (negb (Contains (p ++ f) slash)); rewrite ?collect_wild_root;
  replace (map_to_list (children (node (wildHeap p w i) 0))) with [(p, 1)]
    by (symmetry; apply map_to_list_singleton); cbn [tryChildren];
  rewrite HasPrefix_app, sliceFrom_app, run_leaf by reflexivity;
  destruct (localMatches _ _ _); reflexivity.
Qed.

Lemma collect_wild_child p w i m k :
  collectRules (wildHeap p w i) 1 m k = if bool_decide (k = w) then (m ++ [i])%list else m.
Proof.
  unfold collectRules.
  replace (rules (node (wildHeap p w i) 1)) with ({[w := {[i := 2]}]} : gmap string (gmap string nat))
    by reflexivity.
  rewrite lookup_singleton. case_bool_decide; case_decide; subst; try congruence.
  rewrite map_to_list_singleton. reflexivity.
Qed.

Lemma local_wild p w i f c :
  In c (localMatches (wildHeap p w i) 1 f) <->
  c = i /\ (f = w \/ (w = "*" /\ Contains f slash = false) \/ w = "**").
Proof.
  unfold localMatches. rewrite !collect_wild_child.
  destruct (Contains f slash) eqn:Ec; cbn [negb]; rewrite ?collect_wild_child;
  repeat case_bool_decide; subst; simpl; rewrite ?in_app_iff; simpl; intuition congruence.
Qed.

Lemma local_star p i f c :
  In c (localMatches (wildHeap p "*" i) 1 f) <-> c = i /\ Contains f slash = false.
Proof.
  rewrite local_wild. split.
  - intros [-> [-> | [[_ H] | H]]]; [split; reflexivity | auto | discriminate].
  - intros [-> H]. auto.
Qed.

Lemma local_starstar p i f c :
  In c (localMatches (wildHeap p "**" i) 1 f) <-> c = i.
Proof. rewrite local_wild. intuition. Qed.

(** The descent of [add] for a rule that [findRuleF] locates. *)
Lemma add_found f1 f2 h r p i k :
  findRuleF f1 h r p i = Some k -> f1 <= f2 -> add f2 h r p i = (h, k).
Proof.
  revert f2 h r p. induction f1 as [|f1 IH]; intros f2 h r p Hf Hle; [discriminate|].
  destruct f2 as [|f2]; [lia|]. cbn [findRuleF add] in *.
  destruct (Index p star) as [[|pos]|].
  2:{ unfold obtainSubRouter.
      destruct (children (node h r) !! sliceTo p (S pos)) as [r2|]; [|discriminate].
      apply IH; [exact Hf | lia]. }
  all: destruct (nodes h !! r) as [n|] eqn:Hn; [|discriminate];
       destruct (rules n !! p) as [inner|] eqn:Hp; [|discriminate];
       unfold addSimpleRule, node; rewrite Hn; cbn [default from_option Datatypes.id];
       rewrite Hp; cbn [default from_option Datatypes.id]; rewrite Hp;
       cbn [default from_option Datatypes.id]; rewrite Hf;
       destruct h as [ns rs nx], n as [pa pr ch ru]; unfold setNode, withRules; cbn in *;
       rewrite insert_id by exact Hn; reflexivity.
Qed.

(** C1 (counterexample): after [add("/foo/*", "c1")] and
    [add("/foo/bar", "c2")], resolving "/foo/bar" returns only "c2": the
    literal rule of the root hides the "*" rule of the child although
    "bar" contains no '/'. *)
Lemma C1_literal_shadows_wildcard :
  resolve fooStarBar 0 "/foo/bar" = ["c2"] /\ ~ In "c1" (resolve fooStarBar 0 "/foo/bar").
Proof.
  split; [vm_compute; reflexivity|].
  vm_compute. intros [H | []]. discriminate.
Qed.

(** C1 (amended): for a single subscription installed on a fresh router
    under a non-empty prefix [p] without '*', a trailing "*" rule matches
    [p ++ f] exactly when [f] has no '/', and a trailing "**" rule matches
    [p ++ f] for every [f]; with [p = "/foo/"] this gives
    resolve("/foo/bar") = resolve("/foo/") = {"c1"} and
    resolve("/foo/bar/") = {}. *)
Theorem C1_single_wildcard_semantics p i f c :
  0 < String.length p -> Index p star = None ->
  (In c (resolve (fst (router_add newHeap 0 (p ++ "*") i)) 0 (p ++ f)) <->
     c = i /\ Contains f slash = false) /\
  (In c (resolve (fst (router_add newHeap 0 (p ++ "**") i)) 0 (p ++ f)) <-> c = i).
Proof.
  intros Hl Hi. assert (Hp : p <> "") by (intros ->; simpl in Hl; lia).
  rewrite !add_fresh_wild by (exact Hp || exact Hi || reflexivity). cbn [fst].
  rewrite !resolve_wildHeap. split; [apply local_star | apply local_starstar].
Qed.

Lemma C1_single_wildcard_semantics_witness :
  (0 < String.length "/foo/" /\ Index "/foo/" star = None) /\
  ((In "c1" (resolve (fst (router_add newHeap 0 ("/foo/" ++ "*") "c1")) 0 ("/foo/" ++ "bar")) <->
     "c1" = "c1" /\ Contains "bar" slash = false) /\
   (In "c1" (resolve (fst (router_add newHeap 0 ("/foo/" ++ "**") "c1")) 0 ("/foo/" ++ "bar")) <->
     "c1" = "c1")).
Proof.
  split; [split; [simpl; lia | reflexivity]|].
  apply (C1_single_wildcard_semantics "/foo/" "c1" "bar" "c1"); [simpl; lia | reflexivity].
Defined.

(** C6: when the rule (p, id) is present where [add] looks for it, a
    second [add(p, id)] returns the existing handle and leaves the heap,
    hence every resolve result, unchanged. *)
Theorem C6_add_existing_idempotent h r p i k :
  findRule h r p i = Some k ->
  router_add h r p i = (h, k) /\
  forall r' q, resolve (fst (router_add h r p i)) r' q = resolve h r' q.
Proof.
  intros Hf. assert (Ha : router_add h r p i = (h, k)).
  { unfold router_add. apply (add_found _ _ _ _ _ _ _ Hf). unfold findRule. lia. }
  split; [exact Ha|]. intros r' q. rewrite Ha. reflexivity.
Qed.

Lemma C6_add_existing_idempotent_witness :
  findRule (fst fooStar) 0 "/foo/*" "c1" = Some 2 /\
  router_add (fst fooStar) 0 "/foo/*" "c1" = (fst fooStar, 2) /\
  forall r' q, resolve (fst (router_add (fst fooStar) 0 "/foo/*" "c1")) r' q
               = resolve (fst fooStar) r' q.
Proof.
  assert (Hf : findRule (fst fooStar) 0 "/foo/*" "c1" = Some 2) by (vm_compute; reflexivity).
  split; [exact Hf|]. exact (C6_add_existing_idempotent _ _ _ _ _ Hf).
Defined.

(** C7 (code bug): after [add("/a/x", "c2")] and [add("/a/*/b", "c1")],
    removing the second rule merges the node "/a/" into the root by
    re-adding each remaining rule under [prefix ++ key], where the key is
    the subscriber id: the root gains the rule ("/a/c2", "c2"), so
    "/a/c2", which resolved to nothing before, now resolves to "c2". *)
Theorem C7_merge_readds_under_id :
  snd mergeBefore = 4 /\
  resolve (fst mergeBefore) 0 "/a/c2" = [] /\
  exists h', remove (fst mergeBefore) 4 = Some h' /\
    children (node h' 0) = ∅ /\
    ruleset h' !! 5 = Some (mkRule (Some 0) "/a/c2" "c2") /\
    resolve h' 0 "/a/c2" = ["c2"].
Proof.
  split; [vm_compute; reflexivity|]. split; [vm_compute; reflexivity|].
  eexists. split; [vm_compute; reflexivity|].
  split; [vm_compute; reflexivity|]. split; vm_compute; reflexivity.
Qed.

End RouterProofs.

Module SessionProofs.

Import SessionModel SessionFacts SessionMoreFacts.

Lemma inv_init : inv newSession.
Proof.
  unfold inv, newSession; cbn [chans nextChan output mailbox].
  split; [reflexivity|]. split; [|split; [discriminate| cbn; lia]].
  intros c ch Hc. destruct (decide (c = 0)) as [->|Hne]; [lia|].
  rewrite lookup_singleton_ne in Hc by (unfold closedChannel; lia). discriminate.
Qed.

Lemma fresh_ne s c ch : inv s -> chans s !! c = Some ch -> c <> nextChan s.
Proof. intros (_ & Hb & _) Hc. specialize (Hb _ _ Hc). lia. Qed.

Lemma fresh_none s : inv s -> chans s !! nextChan s = None.
Proof.
  intros Hi. destruct (chans s !! nextChan s) eqn:E; [|reflexivity].
  exfalso. exact (fresh_ne _ _ _ Hi E eq_refl).
Qed.

Lemma step_inv s ev s' r : inv s -> step s ev = Next s' r -> inv s'.
Proof.
  intros Hi Hs. pose proof (fresh_none _ Hi) as Hfr.
  destruct Hi as (H0 & Hb & Ho & Hl).
  destruct s as [mb out run cs nc cl]; cbn in *.
  unfold step in Hs; cbn [isRunning output mailbox chans nextChan negb] in Hs.
  destruct run; [|discriminate]. cbn [negb] in Hs.
  assert (Hn0 : nc <> closedChannel).
  { intros ->. rewrite H0 in Hfr. discriminate. }
  destruct ev as [m|b|om| |].
  - destruct out as [c|].
    + destruct (Ho c eq_refl) as (Hc0 & _ & Hmb & bf & Hcb). rewrite Hcb in Hs. cbn in Hs.
      injection Hs as <- <-. unfold inv, setChans; cbn. split; [rewrite lookup_insert_ne; auto|].
      split; [|split].
      * intros c' ch Hc'. destruct (decide (c' = c)) as [->|Hne].
        -- exact (Hb _ _ Hcb).
        -- rewrite lookup_insert_ne in Hc' by congruence. exact (Hb _ _ Hc').
      * intros c' [= <-]. repeat split; auto. eexists. apply lookup_insert_eq.
      * exact Hl.
    + injection Hs as <- <-. unfold inv, setMailbox; cbn [chans nextChan output mailbox isRunning].
      split; [exact H0|]. split; [exact Hb|]. split; [discriminate|].
      destruct (Nat.ltb MAILBOX_SIZE (length (app mb [m]))) eqn:E.
      * apply Nat.ltb_lt in E.
        assert (La : length (app mb [m]) = S (length mb)) by (rewrite List.length_app; cbn; lia).
        destruct (app mb [m]) as [|x t]; cbn [tl length] in *; lia.
      * apply Nat.ltb_ge in E. exact E.
  - destruct out as [c|].
    + injection Hs as <- <-. unfold inv; cbn. auto.
    + unfold convertMailboxToChannel in Hs; cbn in Hs. destruct b.
      * injection Hs as <- <-. unfold inv, setOutput; cbn.
        split; [rewrite lookup_insert_ne; auto|]. split; [|split; [|cbn; lia]].
        -- intros c' ch Hc'. destruct (decide (c' = nc)) as [->|Hne]; [lia|].
           rewrite lookup_insert_ne in Hc' by congruence. specialize (Hb _ _ Hc'). lia.
        -- intros c' [= <-]. repeat split; auto. eexists. apply lookup_insert_eq.
      * unfold closeChan in Hs; cbn in Hs. rewrite lookup_insert_eq in Hs. cbn in Hs.
        injection Hs as <- <-. unfold inv, setChans; cbn.
        rewrite insert_insert_eq.
        split; [rewrite lookup_insert_ne; auto|]. split; [|split; [discriminate|cbn; lia]].
        intros c' ch Hc'. destruct (decide (c' = nc)) as [->|Hne]; [lia|].
        rewrite lookup_insert_ne in Hc' by congruence. specialize (Hb _ _ Hc'). lia.
  - destruct out as [c|].
    2:{ destruct om; discriminate. }
    destruct (Ho c eq_refl) as (Hc0 & _ & Hmb & bf & Hcb). subst mb.
    destruct om as [m|]; cbn in Hs; unfold closeChan in Hs; cbn in Hs; rewrite Hcb in Hs; cbn in Hs;
      injection Hs as <- <-; unfold inv, setOutput, setChans, setMailbox;
      cbn [chans nextChan output mailbox isRunning];
      (split; [rewrite lookup_insert_ne; auto|]);
      (split; [|split; [discriminate|cbn [length]; unfold MAILBOX_SIZE; lia]]);
      intros c' ch Hc'; (destruct (decide (c' = c)) as [->|Hne]; [exact (Hb _ _ Hcb)|]);
      rewrite lookup_insert_ne in Hc' by congruence; exact (Hb _ _ Hc').
  - destruct out as [c|].
    + destruct (Ho c eq_refl) as (Hc0 & _ & Hmb & bf & Hcb). subst mb.
      unfold stopLoop, closeChan, convertMailboxToChannel, setOutput, setChans in Hs; cbn in Hs.
      rewrite Hcb in Hs; cbn in Hs. rewrite lookup_insert_eq in Hs; cbn in Hs.
      injection Hs as <- <-. unfold inv; cbn [chans nextChan output mailbox isRunning].
      rewrite insert_insert_eq.
      split; [rewrite !lookup_insert_ne; auto|].
      split; [|split; [discriminate|cbn; lia]].
      intros c' ch Hc'. destruct (decide (c' = nc)) as [->|Hne]; [lia|].
      rewrite lookup_insert_ne in Hc' by congruence.
      destruct (decide (c' = c)) as [->|Hne']; [specialize (Hb _ _ Hcb); lia|].
      rewrite lookup_insert_ne in Hc' by congruence. specialize (Hb _ _ Hc'). lia.
    + unfold stopLoop, closeChan, convertMailboxToChannel, setOutput, setChans in Hs; cbn in Hs.
      rewrite lookup_insert_eq in Hs; cbn in Hs.
      injection Hs as <- <-. unfold inv; cbn [chans nextChan output mailbox isRunning].
      rewrite insert_insert_eq.
      split; [rewrite !lookup_insert_ne; auto|].
      split; [|split; [discriminate|cbn; lia]].
      intros c' ch Hc'. destruct (decide (c' = nc)) as [->|Hne]; [lia|].
      rewrite lookup_insert_ne in Hc' by congruence. specialize (Hb _ _ Hc'). lia.
  - destruct out as [c|]; [|discriminate].
    destruct (Ho c eq_refl) as (Hc0 & _ & Hmb & bf & Hcb). subst mb.
    unfold stopLoop, closeChan, setOutput, setChans in Hs; cbn in Hs.
    rewrite Hcb in Hs; cbn in Hs. injection Hs as <- <-.
    unfold inv; cbn [chans nextChan output mailbox isRunning].
    split; [rewrite !lookup_insert_ne; auto|].
    split; [|split; [discriminate|cbn; lia]].
    intros c' ch Hc'. destruct (decide (c' = c)) as [->|Hne']; [exact (Hb _ _ Hcb)|].
    rewrite lookup_insert_ne in Hc' by congruence. exact (Hb _ _ Hc').
Qed.

Lemma recv_inv s c m s' : inv s -> recv s c = Some (m, s') -> inv s'.
Proof.
  intros (H0 & Hb & Ho & Hl) Hr. unfold recv in Hr.
  destruct (chans s !! c) as [[[|x rest] cl]|] eqn:Hc; try discriminate.
  injection Hr as <- <-.
  assert (Hc0 : c <> closedChannel) by (intros ->; rewrite H0 in Hc; discriminate).
  unfold inv, setChans; cbn [chans nextChan output mailbox isRunning].
  split; [rewrite lookup_insert_ne; auto|]. split; [|split; [|exact Hl]].
  - intros c' ch Hc'. destruct (decide (c' = c)) as [->|Hne]; [exact (Hb _ _ Hc)|].
    rewrite lookup_insert_ne in Hc' by congruence. exact (Hb _ _ Hc').
  - intros c' Ho'. destruct (Ho c' Ho') as (Hc1 & Hrun & Hmb & bf & Hcb).
    repeat split; auto. destruct (decide (c' = c)) as [->|Hne].
    + rewrite Hc in Hcb. injection Hcb as _ ->. eexists. apply lookup_insert_eq.
    + rewrite lookup_insert_ne by congruence. eauto.
Qed.

Lemma reachable_inv s : reachable s -> inv s.
Proof.
  induction 1; [apply inv_init | eapply step_inv; eauto | eapply recv_inv; eauto].
Qed.

Lemma feed_reachable s ms s' r : reachable s -> feed s ms = Next s' r -> reachable s'.
Proof.
  revert s. induction ms as [|m ms IH]; intros s Hr Hf; cbn in Hf.
  - injection Hf as <- _. exact Hr.
  - destruct (step s (Upstream m)) as [s1 r1| |] eqn:E; try discriminate.
    exact (IH s1 (reach_step _ _ _ _ Hr E) Hf).
Qed.

Lemma setMailbox_setMailbox s a b : setMailbox (setMailbox s a) b = setMailbox s b.
Proof. destruct s; reflexivity. Qed.

Lemma feed_idle s ms :
  isRunning s = true -> output s = None ->
  length (mailbox s) + length ms <= MAILBOX_SIZE ->
  feed s ms = Next (setMailbox s (app (mailbox s) ms)) None.
Proof.
  revert s. induction ms as [|m ms IH]; intros s Hrun Hout Hlen; cbn [feed].
  - rewrite app_nil_r. destruct s; reflexivity.
  - unfold step at 1. rewrite Hrun, Hout. cbn [negb].
    assert (E : Nat.ltb MAILBOX_SIZE (length (app (mailbox s) [m])) = false).
    { apply Nat.ltb_ge. rewrite List.length_app. cbn [length] in *. lia. }
    rewrite E. rewrite IH.
    2:{ destruct s; exact Hrun. }
    2:{ destruct s; exact Hout. }
    2:{ destruct s; cbn [mailbox setMailbox] in *. rewrite List.length_app. cbn [length] in *. lia. }
    rewrite setMailbox_setMailbox. cbn [mailbox setMailbox].
    rewrite <- app_assoc. reflexivity.
Qed.

Lemma lastN_app {A} k (l r : list A) : lastN k (app (lastN k l) r) = lastN k (app l r).
Proof.
  unfold lastN. rewrite !List.length_app, List.length_skipn, !skipn_app, skipn_skipn, List.length_skipn.
  f_equal; [f_equal; lia|f_equal; lia].
Qed.

Lemma step_upstream_idle s m :
  isRunning s = true -> output s = None -> length (mailbox s) <= MAILBOX_SIZE ->
  step s (Upstream m) = Next (setMailbox s (lastN MAILBOX_SIZE (app (mailbox s) [m]))) None.
Proof.
  intros Hrun Hout Hl. unfold step. rewrite Hrun, Hout. cbn [negb]. unfold lastN.
  assert (La : length (app (mailbox s) [m]) = S (length (mailbox s)))
    by (rewrite List.length_app; cbn [length]; lia).
  rewrite La. destruct (Nat.ltb MAILBOX_SIZE (S (length (mailbox s)))) eqn:E.
  - apply Nat.ltb_lt in E.
    replace (S (length (mailbox s)) - MAILBOX_SIZE) with 1 by lia.
    destruct (app (mailbox s) [m]); reflexivity.
  - apply Nat.ltb_ge in E.
    replace (S (length (mailbox s)) - MAILBOX_SIZE) with 0 by lia. reflexivity.
Qed.

Lemma feed_idle_lastN s ms :
  reachable s -> isRunning s = true -> output s = None ->
  feed s ms = Next (setMailbox s (lastN MAILBOX_SIZE (app (mailbox s) ms))) None.
Proof.
  revert s. induction ms as [|m ms IH]; intros s Hr Hrun Hout.
  - cbn [feed]. rewrite app_nil_r. unfold lastN.
    pose proof (reachable_inv s Hr) as (_ & _ & _ & Hl).
    replace (length (mailbox s) - MAILBOX_SIZE) with 0 by lia. destruct s; reflexivity.
  - pose proof (reachable_inv s Hr) as (_ & _ & _ & Hl).
    cbn [feed]. rewrite (step_upstream_idle s m Hrun Hout Hl).
    assert (Hr' : reachable (setMailbox s (lastN MAILBOX_SIZE (app (mailbox s) [m])))).
    { eapply reach_step; [exact Hr|]. apply step_upstream_idle; assumption. }
    rewrite IH by (exact Hr' || (destruct s; assumption)).
    rewrite setMailbox_setMailbox. cbn [mailbox setMailbox]. destruct s; cbn [mailbox].
    rewrite lastN_app, <- app_assoc. reflexivity.
Qed.

(** C2: in every reachable state the mailbox holds at most MAILBOX_SIZE
    events, and an upstream event that arrives with no poller attached and
    a full mailbox drops the front entry and is appended at the back, the
    survivors keeping their order. *)
Theorem C2_mailbox_bounded s m :
  reachable s ->
  length (mailbox s) <= MAILBOX_SIZE /\
  (isRunning s = true -> output s = None -> length (mailbox s) = MAILBOX_SIZE ->
   step s (Upstream m) = Next (setMailbox s (tl (app (mailbox s) [m]))) None).
Proof.
  intros Hr. destruct (reachable_inv _ Hr) as (_ & _ & _ & Hl). split; [exact Hl|].
  intros Hrun Hout Hfull. unfold step. rewrite Hrun, Hout. cbn [negb].
  assert (E : Nat.ltb MAILBOX_SIZE (length (app (mailbox s) [m])) = true).
  { apply Nat.ltb_lt. rewrite List.length_app. cbn [length]. lia. }
  rewrite E. reflexivity.
Qed.

Lemma C2_mailbox_bounded_witness :
  reachable fullSession /\
  (length (mailbox fullSession) <= MAILBOX_SIZE /\
   (isRunning fullSession = true -> output fullSession = None ->
    length (mailbox fullSession) = MAILBOX_SIZE ->
    step fullSession (Upstream msgB)
    = Next (setMailbox fullSession (tl (app (mailbox fullSession) [msgB]))) None)) /\
  isRunning fullSession = true /\ output fullSession = None /\
  length (mailbox fullSession) = MAILBOX_SIZE.
Proof.
  assert (Hr : reachable fullSession).
  { apply (feed_reachable newSession (repeat msgA MAILBOX_SIZE) fullSession None reach_init).
    vm_compute. reflexivity. }
  split; [exact Hr|]. split; [exact (C2_mailbox_bounded fullSession msgB Hr)|].
  split; [vm_compute; reflexivity|]. split; vm_compute; reflexivity.
Defined.

(** C3: while a connect poller [c] is attached, every attach request
    (connect or not) is answered with the pre-closed, empty
    [closedChannel], from which nothing is received, and leaves the state
    unchanged; the next upstream event is still sent to [c], which stays
    the only attached channel. *)
Theorem C3_attached_poller_exclusive s c b m :
  reachable s -> output s = Some c ->
  step s (ChannelReq b) = Next s (Some closedChannel) /\
  chans s !! closedChannel = Some (mkChan [] true) /\
  recv s closedChannel = None /\
  exists bf s', chans s !! c = Some (mkChan bf false) /\
    step s (Upstream m) = Next s' None /\ output s' = Some c /\
    chans s' !! c = Some (mkChan (app bf [m]) false).
Proof.
  intros Hr Hout. destruct (reachable_inv _ Hr) as (H0 & _ & Ho & _).
  destruct (Ho c Hout) as (Hc0 & Hrun & _ & bf & Hcb).
  split; [unfold step; rewrite Hrun, Hout; reflexivity|].
  split; [exact H0|]. split; [unfold recv; rewrite H0; reflexivity|].
  exists bf, (setChans s (<[c := mkChan (app bf [m]) false]> (chans s))).
  split; [exact Hcb|]. split; [unfold step; rewrite Hrun, Hout, Hcb; reflexivity|].
  split; [destruct s; exact Hout|]. apply lookup_insert_eq.
Qed.

Lemma C3_attached_poller_exclusive_witness :
  (reachable connectedSession /\ output connectedSession = Some 1) /\
  (step connectedSession (ChannelReq false) = Next connectedSession (Some closedChannel) /\
   chans connectedSession !! closedChannel = Some (mkChan [] true) /\
   recv connectedSession closedChannel = None /\
   exists bf s', chans connectedSession !! 1 = Some (mkChan bf false) /\
     step connectedSession (Upstream msgA) = Next s' None /\ output s' = Some 1 /\
     chans s' !! 1 = Some (mkChan (app bf [msgA]) false)).
Proof.
  assert (Hr : reachable connectedSession).
  { apply (reach_step newSession (ChannelReq true) connectedSession (Some 1) reach_init).
    vm_compute. reflexivity. }
  assert (Ho : output connectedSession = Some 1) by (vm_compute; reflexivity).
  split; [split; assumption|].
  exact (C3_attached_poller_exclusive connectedSession 1 false msgA Hr Ho).
Defined.

(** C4: [close()] on a running session stops the loop (and spawns the
    cleanup), closes an attached poller, and answers a fresh channel that
    holds exactly the mailbox, in order, and is closed. *)
Theorem C4_close_returns_mailbox s :
  reachable s -> isRunning s = true ->
  exists s' ch, step s ChannelClose = Next s' (Some ch) /\
    ch <> closedChannel /\
    chans s' !! ch = Some (mkChan (mailbox s) true) /\
    isRunning s' = false /\ output s' = None /\ cleanupSpawned s' = true /\
    (forall c, output s = Some c -> exists bf, chans s' !! c = Some (mkChan bf true)).
Proof.
  intros Hr Hrun. pose proof (reachable_inv _ Hr) as Hi.
  pose proof (fresh_none _ Hi) as Hfr.
  destruct Hi as (H0 & Hb & Ho & _).
  destruct s as [mb out run cs nc cl]; cbn [isRunning] in Hrun; subst run.
  cbn [chans nextChan output mailbox isRunning] in *.
  assert (Hn0 : nc <> closedChannel) by (intros ->; rewrite H0 in Hfr; discriminate).
  unfold step; cbn [isRunning negb].
  destruct out as [c|].
  - destruct (Ho c eq_refl) as (Hc0 & _ & Hmb & bf & Hcb). subst mb.
    assert (Hcn : c <> nc) by (specialize (Hb _ _ Hcb); lia).
    unfold stopLoop, closeChan, convertMailboxToChannel, setOutput, setChans; cbn.
    rewrite Hcb; cbn. rewrite lookup_insert_eq; cbn.
    eexists _, nc. split; [reflexivity|]. split; [exact Hn0|]. cbn.
    split; [apply lookup_insert_eq|]. do 3 (split; [reflexivity|]).
    intros c' [= <-]. exists bf. rewrite insert_insert_eq, lookup_insert_ne by congruence.
    apply lookup_insert_eq.
  - unfold stopLoop, closeChan, convertMailboxToChannel, setOutput, setChans; cbn.
    rewrite lookup_insert_eq; cbn.
    eexists _, nc. split; [reflexivity|]. split; [exact Hn0|]. cbn.
    split; [apply lookup_insert_eq|]. do 3 (split; [reflexivity|]).
    intros c' [=].
Qed.

Lemma C4_close_returns_mailbox_witness :
  (reachable twoMsgSession /\ isRunning twoMsgSession = true /\ mailbox twoMsgSession = [msgA; msgB]) /\
  (exists s' ch, step twoMsgSession ChannelClose = Next s' (Some ch) /\
    ch <> closedChannel /\ chans s' !! ch = Some (mkChan [msgA; msgB] true) /\
    isRunning s' = false /\ output s' = None /\ cleanupSpawned s' = true) /\
  (reachable connectedSession /\ isRunning connectedSession = true /\ output connectedSession = Some 1) /\
  (exists s' ch, step connectedSession ChannelClose = Next s' (Some ch) /\
    ch <> closedChannel /\ chans s' !! ch = Some (mkChan [] true) /\
    isRunning s' = false /\ output s' = None /\ cleanupSpawned s' = true /\
    exists bf, chans s' !! 1 = Some (mkChan bf true)).
Proof.
  assert (R2 : reachable twoMsgSession).
  { apply (feed_reachable newSession [msgA; msgB] twoMsgSession None reach_init). vm_compute. reflexivity. }
  assert (U2 : isRunning twoMsgSession = true) by (vm_compute; reflexivity).
  assert (M2 : mailbox twoMsgSession = [msgA; msgB]) by (vm_compute; reflexivity).
  assert (Rc : reachable connectedSession).
  { apply (reach_step newSession (ChannelReq true) connectedSession (Some 1) reach_init).
    vm_compute. reflexivity. }
  assert (Uc : isRunning connectedSession = true) by (vm_compute; reflexivity).
  assert (Mc : mailbox connectedSession = []) by (vm_compute; reflexivity).
  assert (Oc : output connectedSession = Some 1) by (vm_compute; reflexivity).
  split; [split; [exact R2|split; [exact U2|exact M2]]|].
  split.
  { destruct (C4_close_returns_mailbox twoMsgSession R2 U2) as (s' & ch & H1 & H2 & H3 & H4 & H5 & H6 & _).
    rewrite M2 in H3. exists s', ch. repeat split; assumption. }
  split; [split; [exact Rc|split; [exact Uc|exact Oc]]|].
  destruct (C4_close_returns_mailbox connectedSession Rc Uc) as (s' & ch & H1 & H2 & H3 & H4 & H5 & H6 & H7).
  rewrite Mc in H3. exists s', ch. repeat split; try assumption. exact (H7 1 Oc).
Defined.

(** C5 (code bug): when the idle timer fires while no poller is attached,
    the actor executes [close(output)] on a nil channel and panics, so the
    loop never reaches [go cleanup()]. *)
Theorem C5_idle_timeout_without_poller_panics s :
  isRunning s = true -> output s = None ->
  step s IdleTimeout = Panic "close of nil channel".
Proof.
  intros Hrun Hout. unfold step. rewrite Hrun. cbn [negb].
  unfold closeChan, stopLoop. cbn [output]. rewrite Hout. reflexivity.
Qed.

Lemma C5_idle_timeout_without_poller_panics_witness :
  (reachable newSession /\ isRunning newSession = true /\ output newSession = None) /\
  step newSession IdleTimeout = Panic "close of nil channel".
Proof.
  split; [split; [exact reach_init | split; reflexivity]|].
  apply C5_idle_timeout_without_poller_panics; reflexivity.
Defined.

(** C8 (amended): when a poller [c] is attached, a release with pushback
    [e] closes [c] and leaves the mailbox [[e]]; the channel returned by
    the next attach request, after upstream events [ms], holds the last
    MAILBOX_SIZE entries of [e :: ms]: [e] followed by [ms] if fewer than
    MAILBOX_SIZE events arrived, and without [e], only the last
    MAILBOX_SIZE events, otherwise. *)
Theorem C8_release_pushback_bounded s c e ms b :
  reachable s -> output s = Some c ->
  exists s1, step s (ChannelTimeout (Some e)) = Next s1 None /\
    mailbox s1 = [e] /\ output s1 = None /\
    (exists bf, chans s1 !! c = Some (mkChan bf true)) /\
    exists s2 s3 ch bf, feed s1 ms = Next s2 None /\
      step s2 (ChannelReq b) = Next s3 (Some ch) /\
      chans s3 !! ch = Some (mkChan bf (negb b)) /\
      (length ms < MAILBOX_SIZE -> bf = e :: ms) /\
      (MAILBOX_SIZE <= length ms -> bf = lastN MAILBOX_SIZE ms).
Proof.
  intros Hr Hout. destruct (reachable_inv _ Hr) as (_ & _ & Ho & _).
  destruct (Ho c Hout) as (Hc0 & Hrun & Hmb & bf & Hcb).
  destruct s as [mb out run cs nc cl]; cbn in Hout, Hrun, Hmb, Hcb; subst out run mb.
  set (s1 := mkSession [e] None true (<[c := mkChan bf true]> cs) nc cl).
  assert (E1 : step (mkSession [] (Some c) true cs nc cl) (ChannelTimeout (Some e)) = Next s1 None).
  { unfold step, closeChan, setMailbox, setChans, setOutput; cbn. rewrite Hcb. reflexivity. }
  exists s1. split; [exact E1|].
  split; [reflexivity|]. split; [reflexivity|].
  split; [exists bf; apply lookup_insert_eq|].
  assert (HL1 : length ms < MAILBOX_SIZE -> lastN MAILBOX_SIZE (e :: ms) = e :: ms).
  { intros Hl. unfold lastN. cbn [length]. replace (S (length ms) - MAILBOX_SIZE) with 0 by lia.
    reflexivity. }
  assert (HL2 : MAILBOX_SIZE <= length ms -> lastN MAILBOX_SIZE (e :: ms) = lastN MAILBOX_SIZE ms).
  { intros Hl. unfold lastN. cbn [length].
    replace (S (length ms) - MAILBOX_SIZE) with (S (length ms - MAILBOX_SIZE)) by lia. reflexivity. }
  rewrite (feed_idle_lastN s1 ms (reach_step _ _ _ _ Hr E1) eq_refl eq_refl).
  set (L := lastN MAILBOX_SIZE (app (mailbox s1) ms)).
  assert (HL : L = lastN MAILBOX_SIZE (e :: ms)) by reflexivity.
  clearbody L.
  destruct b; eexists _, _, _, L;
    refine (conj eq_refl (conj _ (conj _ (conj (fun Hl => eq_trans HL (HL1 Hl))
                                            (fun Hl => eq_trans HL (HL2 Hl))))));
    unfold step, convertMailboxToChannel, closeChan, setOutput, setChans; cbn;
    rewrite ?lookup_insert_eq; cbn; try reflexivity;
    rewrite ?insert_insert_eq; apply lookup_insert_eq.
Qed.

Lemma C8_release_pushback_bounded_witness :
  (reachable connectedSession /\ output connectedSession = Some 1 /\
   length [msgA] < MAILBOX_SIZE /\ MAILBOX_SIZE <= length (repeat msgA MAILBOX_SIZE)) /\
  (exists s1, step connectedSession (ChannelTimeout (Some msgB)) = Next s1 None /\
    mailbox s1 = [msgB] /\ output s1 = None /\
    (exists bf, chans s1 !! 1 = Some (mkChan bf true)) /\
    exists s2 s3 ch bf, feed s1 [msgA] = Next s2 None /\
      step s2 (ChannelReq true) = Next s3 (Some ch) /\
      chans s3 !! ch = Some (mkChan bf (negb true)) /\
      (length [msgA] < MAILBOX_SIZE -> bf = msgB :: [msgA]) /\
      (MAILBOX_SIZE <= length [msgA] -> bf = lastN MAILBOX_SIZE [msgA])) /\
  (exists s1, step connectedSession (ChannelTimeout (Some msgB)) = Next s1 None /\
    mailbox s1 = [msgB] /\ output s1 = None /\
    (exists bf, chans s1 !! 1 = Some (mkChan bf true)) /\
    exists s2 s3 ch bf, feed s1 (repeat msgA MAILBOX_SIZE) = Next s2 None /\
      step s2 (ChannelReq true) = Next s3 (Some ch) /\
      chans s3 !! ch = Some (mkChan bf (negb true)) /\
      (length (repeat msgA MAILBOX_SIZE) < MAILBOX_SIZE -> bf = msgB :: repeat msgA MAILBOX_SIZE) /\
      (MAILBOX_SIZE <= length (repeat msgA MAILBOX_SIZE) ->
       bf = lastN MAILBOX_SIZE (repeat msgA MAILBOX_SIZE))).
Proof.
  assert (Hr : reachable connectedSession).
  { apply (reach_step newSession (ChannelReq true) connectedSession (Some 1) reach_init).
    vm_compute. reflexivity. }
  assert (Ho : output connectedSession = Some 1) by (vm_compute; reflexivity).
  split.
  { split; [exact Hr|]. split; [exact Ho|]. split; [unfold MAILBOX_SIZE; cbn; lia|].
    rewrite repeat_length. lia. }
  split; [exact (C8_release_pushback_bounded connectedSession 1 msgB [msgA] true Hr Ho)|].
  exact (C8_release_pushback_bounded connectedSession 1 msgB (repeat msgA MAILBOX_SIZE) true Hr Ho).
Defined.

(** C8 (counterexample): after a release with pushback [msgB] from a
    connected session, MAILBOX_SIZE upstream events push [msgB] out of the
    mailbox, and the next connect channel does not contain it. *)
Lemma C8_pushback_lost_after_overflow :
  exists s1 s2 s3 ch,
    step connectedSession (ChannelTimeout (Some msgB)) = Next s1 None /\
    feed s1 (repeat msgA MAILBOX_SIZE) = Next s2 None /\
    step s2 (ChannelReq true) = Next s3 (Some ch) /\
    chans s3 !! ch = Some (mkChan (repeat msgA MAILBOX_SIZE) false) /\
    ~ In msgB (repeat msgA MAILBOX_SIZE).
Proof.
  do 4 eexists. split; [vm_compute; reflexivity|].
  split; [vm_compute; reflexivity|]. split; [vm_compute; reflexivity|].
  split; [vm_compute; reflexivity|].
  intros H. apply repeat_spec in H. discriminate.
Qed.

End SessionProofs.

Module PoolProofs.

Import PoolModel ScenarioData.

Lemma genLoop_all_collide gen vals v calls limit value :
  (forall k, gen k = v) -> vals !! v <> None -> 0 < limit ->
  genLoop gen vals calls limit value = (v, 0, calls + limit).
Proof.
  intros Hg Hv. revert calls value. induction limit as [|l IH]; intros calls value Hl; [lia|].
  cbn [genLoop]. rewrite Hg. destruct (vals !! v) eqn:E; [|congruence].
  destruct l as [|l'].
  - cbn [genLoop]. replace (calls + 1) with (S calls) by lia. reflexivity.
  - rewrite IH by lia. replace (S calls + S l') with (calls + S (S l')) by lia. reflexivity.
Qed.

Lemma sweep_keeps_live now o x :
  In x o -> (now < expire x)%Z -> In x (sweep now o).
Proof.
  intros Hin Hx. destruct o as [|y rest]; [destruct Hin|]. cbn [sweep].
  destruct (Z.ltb now (expire y)) eqn:E; [exact Hin|].
  apply Z.ltb_ge in E. destruct Hin as [->|Hin]; [lia | exact Hin].
Qed.

Lemma sweep_keeps_last now o e :
  (now < expire e)%Z -> In e (sweep now (app o [e])).
Proof.
  intros He. destruct o as [|y rest]; cbn [sweep app].
  - rewrite (proj2 (Z.ltb_lt _ _) He). left; reflexivity.
  - destruct (Z.ltb now (expire y)); [right|]; apply in_or_app; right; left; reflexivity.
Qed.

(** C9 (code bug): when every generated value collides with the live id
    [v], [get] sets [err] after MAX_ID_GEN_RETRY calls but still inserts
    [v] (no return after the error): the order then holds two distinct
    live elements for [v], and [values] points to the new one. *)
Theorem C9_exhausted_get_still_inserts pool gen now v x :
  (forall k, gen k = v) -> values pool !! v <> None ->
  In x (order pool) -> evalue x = v -> (now < expire x)%Z -> eid x <> nextElem pool ->
  let '(pool', value, err, calls) := get pool gen now in
  value = v /\ err = true /\ calls = MAX_ID_GEN_RETRY /\
  values pool' !! v = Some (nextElem pool) /\
  In x (order pool') /\
  In (mkElem (nextElem pool) v (now + MAX_ID_KEPT_TIME)) (order pool') /\
  x <> mkElem (nextElem pool) v (now + MAX_ID_KEPT_TIME).
Proof.
  intros Hg Hv Hin Hxv Hxe Hid. unfold get.
  rewrite (genLoop_all_collide gen (values pool) v 0 MAX_ID_GEN_RETRY "" Hg Hv)
    by (unfold MAX_ID_GEN_RETRY; lia).
  cbn [Nat.eqb fst snd values order nextElem].
  split; [reflexivity|]. split; [reflexivity|]. split; [reflexivity|].
  split; [apply lookup_insert_eq|].
  split; [apply sweep_keeps_live; [apply in_or_app; left; exact Hin | exact Hxe]|].
  split; [apply sweep_keeps_last; cbn [expire]; unfold MAX_ID_KEPT_TIME; lia|].
  intros Heq. apply Hid. rewrite Heq. reflexivity.
Qed.


Lemma C9_exhausted_get_still_inserts_witness :
  ((forall k : nat, (fun _ => "a") k = "a") /\ values poolA !! "a" <> None /\
   In (mkElem 0 "a" MAX_ID_KEPT_TIME) (order poolA) /\
   evalue (mkElem 0 "a" MAX_ID_KEPT_TIME) = "a" /\
   (1 < expire (mkElem 0 "a" MAX_ID_KEPT_TIME))%Z /\
   eid (mkElem 0 "a" MAX_ID_KEPT_TIME) <> nextElem poolA) /\
  (let '(pool', value, err, calls) := get poolA (fun _ => "a") 1 in
   value = "a" /\ err = true /\ calls = MAX_ID_GEN_RETRY /\
   values pool' !! "a" = Some (nextElem poolA) /\
   In (mkElem 0 "a" MAX_ID_KEPT_TIME) (order pool') /\
   In (mkElem (nextElem poolA) "a" (1 + MAX_ID_KEPT_TIME)) (order pool') /\
   mkElem 0 "a" MAX_ID_KEPT_TIME <> mkElem (nextElem poolA) "a" (1 + MAX_ID_KEPT_TIME)).
Proof.
  assert (H1 : forall k : nat, (fun _ => "a") k = "a") by reflexivity.
  assert (H2 : values poolA !! "a" <> None) by (vm_compute; discriminate).
  assert (H3 : In (mkElem 0 "a" MAX_ID_KEPT_TIME) (order poolA)) by (vm_compute; left; reflexivity).
  assert (H4 : evalue (mkElem 0 "a" MAX_ID_KEPT_TIME) = "a") by reflexivity.
  assert (H5 : (1 < expire (mkElem 0 "a" MAX_ID_KEPT_TIME))%Z) by (vm_compute; reflexivity).
  assert (H6 : eid (mkElem 0 "a" MAX_ID_KEPT_TIME) <> nextElem poolA) by (vm_compute; discriminate).
  split; [repeat split; assumption|].
  exact (C9_exhausted_get_still_inserts poolA (fun _ => "a") 1 "a" _ H1 H2 H3 H4 H5 H6).
Defined.

Lemma genLoop_spec gen vals limit : forall calls value,
  let '(v, l, c) := genLoop gen vals calls limit value in
  c <= calls + limit /\
  (l = 0 <-> forall k, calls <= k < calls + limit -> vals !! gen k <> None) /\
  (l <> 0 -> vals !! v = None).
Proof.
  induction limit as [|l IH]; intros calls value; cbn [genLoop].
  - split; [lia|]. split; [split; [intros _ k Hk; lia | reflexivity] | congruence].
  - destruct (vals !! gen calls) eqn:E.
    + specialize (IH (S calls) (gen calls)).
      destruct (genLoop gen vals (S calls) l (gen calls)) as [[v l'] c].
      destruct IH as (Hc & Hl & Hv). split; [lia|]. split; [|exact Hv].
      rewrite Hl. split.
      * intros H k Hk. destruct (decide (k = calls)) as [->|Hne]; [congruence|].
        apply H. lia.
      * intros H k Hk. apply H. lia.
    + split; [lia|]. split; [|intros _; exact E]. split; [discriminate|].
      intros H. exfalso. exact (H calls ltac:(lia) E).
Qed.

(** [get] makes at most MAX_ID_GEN_RETRY generator calls, sets [err]
    exactly when every one of these calls collided with an id of the pool,
    returns an id absent from the pool when [err] is not set, and always
    records the returned id as a fresh element with expiry
    [now + MAX_ID_KEPT_TIME] that survives the sweep. *)
Theorem get_retry_contract pool gen now :
  let '(pool', value, err, calls) := get pool gen now in
  calls <= MAX_ID_GEN_RETRY /\
  (err = true <-> forall k, k < MAX_ID_GEN_RETRY -> values pool !! gen k <> None) /\
  (err = false -> values pool !! value = None) /\
  values pool' !! value = Some (nextElem pool) /\
  In (mkElem (nextElem pool) value (now + MAX_ID_KEPT_TIME)) (order pool').
Proof.
  unfold get. pose proof (genLoop_spec gen (values pool) MAX_ID_GEN_RETRY 0 "") as H.
  destruct (genLoop gen (values pool) 0 MAX_ID_GEN_RETRY "") as [[v l] c].
  destruct H as (Hc & Hl & Hv). cbn [fst snd values order nextElem].
  split; [lia|]. split.
  - rewrite Nat.eqb_eq, Hl. split; intros H k Hk; apply H; lia.
  - split; [intros E; apply Hv; apply Nat.eqb_neq; exact E|].
    split; [apply lookup_insert_eq|].
    apply sweep_keeps_last. cbn [expire]. unfold MAX_ID_KEPT_TIME. lia.
Qed.

End PoolProofs.

Module ServerProofs.

Import ServerModel ScenarioData.

(** C10: [subscribe] with a subscription containing ',' panics with
    "not supported yet" on any server state and client id, before the
    pool or the broker is touched (the state at the panic is the
    initial one). *)
Theorem C10_subscribe_comma_panics st now cid subscription :
  Contains subscription comma = true ->
  subscribe st now cid subscription = SPanic "not supported yet" st.
Proof. intros H. unfold subscribe. rewrite H. reflexivity. Qed.

Lemma C10_subscribe_comma_panics_witness :
  Contains "/a,/b" comma = true /\
  subscribe emptyServer 0 "nobody" "/a,/b" = SPanic "not supported yet" emptyServer.
Proof.
  assert (H : Contains "/a,/b" comma = true) by reflexivity.
  split; [exact H| exact (C10_subscribe_comma_panics emptyServer 0 "nobody" "/a,/b" H)].
Defined.

End ServerProofs.

(* ------------------------------------------------------------------ *)
(** ** Further router properties *)

Module RouterMoreProofs.

Import RouterModel RouterQueries RouterProofs.

Lemma foldl_snoc_map {A B} (f : A -> B) (l : list A) (m : list B) :
  foldl (fun ms a => app ms [f a]) m l = app m (map f l).
Proof.
  revert m. induction l as [|a l IH]; intros m; cbn; [rewrite app_nil_r; reflexivity|].
  rewrite IH, <- app_assoc. reflexivity.
Qed.

Lemma collectRules_eq h r m patt :
  collectRules h r m patt =
  match rules (node h r) !! patt with
  | Some rls => app m (map (fun iv : string * nat => ruleId h iv.2) (map_to_list rls))
  | None => m
  end.
Proof. unfold collectRules. destruct (rules (node h r) !! patt); [apply foldl_snoc_map|reflexivity]. Qed.

Lemma collect_mono h r m patt c : In c m -> In c (collectRules h r m patt).
Proof. intros H. rewrite collectRules_eq. destruct (_ !! _); [apply in_or_app; left|]; exact H. Qed.

Lemma collect_hit h r m patt rls j x :
  rules (node h r) !! patt = Some rls -> rls !! j = Some x ->
  In (ruleId h x) (collectRules h r m patt).
Proof.
  intros Hr Hj. rewrite collectRules_eq, Hr. apply in_or_app; right.
  apply in_map_iff. exists (j, x). split; [reflexivity|].
  apply list_elem_of_In, elem_of_map_to_list. exact Hj.
Qed.

Lemma local_hit h r q rls j x :
  rules (node h r) !! q = Some rls -> rls !! j = Some x ->
  In (ruleId h x) (localMatches h r q).
Proof.
  intros Hr Hj. unfold localMatches. apply collect_mono.
  destruct (negb (Contains q slash)); [apply collect_mono|]; exact (collect_hit _ _ _ _ _ _ _ Hr Hj).
Qed.

Lemma run_local fuel h r q c : In c (localMatches h r q) -> In c (run (S fuel) h r q).
Proof. intros H. rewrite run_S. destruct (localMatches h r q); [destruct H|exact H]. Qed.

Lemma node_setNode h a n : node (setNode h a n) a = n.
Proof. unfold node, setNode. cbn [nodes]. rewrite lookup_insert_eq. reflexivity. Qed.

Lemma node_setNode_ne h a b n : a <> b -> node (setNode h a n) b = node h b.
Proof. intros Hne. unfold node, setNode. cbn [nodes]. rewrite lookup_insert_ne by exact Hne. reflexivity. Qed.

Lemma addSimple_hit h r p i :
  exists rls x,
    rules (node (fst (addSimpleRule h r p i)) r) !! p = Some rls /\ rls !! i = Some x /\
    (ruleId (fst (addSimpleRule h r p i)) x = i \/
     ((rules (node h r) !! p) ≫= (fun m => m !! i) = Some x /\
      ruleId (fst (addSimpleRule h r p i)) x = ruleId h x)).
Proof.
  unfold addSimpleRule.
  destruct (rules (node h r) !! p) as [inner|] eqn:Hp0; cbn [default from_option Datatypes.id].
  - rewrite Hp0; cbn [default from_option Datatypes.id]. destruct (inner !! i) as [x|] eqn:Hx; cbn [fst].
    + exists inner, x. rewrite node_setNode. cbn [rules withRules].
      split; [exact Hp0|]. split; [exact Hx|]. right. split; [exact Hx | reflexivity].
    + eexists _, _. rewrite node_setNode. cbn [rules withRules].
      split; [apply lookup_insert_eq|]. split; [apply lookup_insert_eq|].
      left. unfold ruleId, setNode; cbn [ruleset]. rewrite lookup_insert_eq. reflexivity.
  - rewrite lookup_insert_eq. cbn [default from_option Datatypes.id]. rewrite lookup_empty. cbn [fst].
    eexists _, _. rewrite node_setNode. cbn [rules withRules].
    split; [apply lookup_insert_eq|]. split; [apply lookup_insert_eq|].
    left. unfold ruleId, setNode; cbn [ruleset]. rewrite lookup_insert_eq. reflexivity.
Qed.

(** A literal subscription is resolvable: after [add(p, i)] at the root
    with a path [p] that contains no '*' or starts with it (so that
    [addSimpleRule] handles it at the root), [resolve(p)] contains [i],
    provided a rule already stored under [rules[p][i]] carries [i]. *)
Theorem add_literal_resolves h p i :
  (Index p star = None \/ Index p star = Some 0) ->
  (forall x, (rules (node h 0) !! p) ≫= (fun m => m !! i) = Some x -> ruleId h x = i) ->
  In i (resolve (fst (router_add h 0 p i)) 0 p).
Proof.
  intros Hp Hid. unfold router_add.
  assert (Hs : add (S (String.length p + weight h)) h 0 p i = addSimpleRule h 0 p i)
    by (cbn [add]; destruct Hp as [-> | ->]; reflexivity).
  rewrite Hs. unfold resolve. apply run_local.
  destruct (addSimple_hit h 0 p i) as (rls & x & Hr & Hx & [Hi | [Hf Hi]]).
  - pose proof (local_hit _ _ _ _ _ _ Hr Hx) as H. rewrite Hi in H. exact H.
  - pose proof (local_hit _ _ _ _ _ _ Hr Hx) as H. rewrite Hi, (Hid x Hf) in H. exact H.
Qed.

Lemma setNode_setNode h a n1 n2 : setNode (setNode h a n1) a n2 = setNode h a n2.
Proof. destruct h; unfold setNode; cbn. rewrite insert_insert_eq. reflexivity. Qed.

Lemma ruleset_removeRule h r x : ruleset (removeRule h r x) = ruleset h.
Proof. unfold removeRule. destruct (_ !! _); reflexivity. Qed.

Lemma removeRule_twice h r x : removeRule (removeRule h r x) r x = removeRule h r x.
Proof.
  unfold removeRule at 2. destruct (rules (node h r) !! path x) as [rls|] eqn:E.
  - unfold removeRule. rewrite node_setNode. cbn [rules withRules].
    rewrite lookup_insert_eq, delete_delete_eq, insert_insert_eq, setNode_setNode.
    rewrite E. reflexivity.
  - unfold removeRule. rewrite E. reflexivity.
Qed.

(** Removing a rule whose path does not start with '*' a second time
    succeeds and changes nothing: [removeRule] leaves the heap unchanged
    once the id is gone, and no merge is attempted. *)
Theorem remove_literal_twice h a h1 :
  (forall x, ruleset h !! a = Some x -> HasPrefix (path x) "*" = false) ->
  remove h a = Some h1 -> remove h1 a = Some h1.
Proof.
  intros Hlit Hrm. unfold remove in Hrm.
  destruct (ruleset h !! a) as [x|] eqn:Ha; [|discriminate].
  destruct (router x) as [r|] eqn:Hr; [|discriminate].
  rewrite (Hlit x eq_refl) in Hrm. injection Hrm as <-.
  unfold remove. rewrite ruleset_removeRule, Ha, Hr, (Hlit x eq_refl), removeRule_twice.
  reflexivity.
Qed.

Lemma Index_none_not_star p : Index p star = None -> HasPrefix p "*" = false.
Proof.
  intros H. destruct p as [|c p]; [reflexivity|]. unfold HasPrefix. cbn [String.prefix].
  destruct (ascii_dec "*" c) as [<-|]; [cbn in H; discriminate|reflexivity].
Qed.

Lemma addSimple_fresh h p i n :
  nodes h !! 0 = Some n -> default ∅ (rules n !! p) !! i = None ->
  addSimpleRule h 0 p i =
  (mkHeap (<[0 := withRules n (<[p := <[i := next h]> (default ∅ (rules n !! p))]> (rules n))]> (nodes h))
          (<[next h := mkRule (Some 0) p i]> (ruleset h)) (S (next h)), next h).
Proof.
  intros Hn Hi. assert (Hnode : node h 0 = n) by (unfold node; rewrite Hn; reflexivity).
  unfold addSimpleRule. rewrite Hnode.
  destruct (rules n !! p) as [inner|] eqn:Ep; cbn [default from_option Datatypes.id] in *.
  - rewrite Ep. cbn [default from_option Datatypes.id]. rewrite Hi.
    unfold node, setNode; cbn [nodes ruleset next]. rewrite lookup_insert_eq.
    cbn [default from_option Datatypes.id withRules rules parent prefix children].
    rewrite insert_insert_eq. reflexivity.
  - rewrite lookup_insert_eq. cbn [default from_option Datatypes.id]. rewrite lookup_empty.
    unfold node, setNode; cbn [nodes ruleset next]. rewrite lookup_insert_eq.
    cbn [default from_option Datatypes.id withRules rules parent prefix children].
    rewrite !insert_insert_eq. reflexivity.
Qed.

Lemma tryChildren_ext s1 s2 p cs m :
  (forall r q, s1 r q = s2 r q) -> tryChildren s1 p cs m = tryChildren s2 p cs m.
Proof.
  intros Hs. revert m. induction cs as [|[pre r2] cs IH]; intros m; cbn; [reflexivity|].
  rewrite Hs. destruct (HasPrefix p pre); [|apply IH].
  destruct (s2 r2 _); [apply IH|reflexivity].
Qed.

Lemma run_congr h1 h2 :
  (forall r, children (node h1 r) = children (node h2 r)) ->
  (forall r m k, collectRules h1 r m k = collectRules h2 r m k) ->
  forall fuel r q, run fuel h1 r q = run fuel h2 r q.
Proof.
  intros Hch Hc fuel. induction fuel as [|fuel IH]; intros r q; [reflexivity|].
  rewrite !run_S. unfold localMatches. rewrite !Hc, Hch.
  destruct (collectRules h2 r _ "**"); [|reflexivity].
  apply tryChildren_ext. exact IH.
Qed.

Lemma handle_below h r k rls j x :
  handlesBelowNext h = true -> rules (node h r) !! k = Some rls -> rls !! j = Some x -> x < next h.
Proof.
  intros Hb Hk Hj. unfold node in Hk. destruct (nodes h !! r) as [n|] eqn:Hn.
  - unfold handlesBelowNext in Hb. cbn [default from_option Datatypes.id] in Hk.
    rewrite forallb_forall in Hb.
    specialize (Hb (r, n) (proj1 (list_elem_of_In _ _) (proj2 (elem_of_map_to_list _ _ _) Hn))).
    rewrite forallb_forall in Hb.
    specialize (Hb (k, rls) (proj1 (list_elem_of_In _ _) (proj2 (elem_of_map_to_list _ _ _) Hk))).
    rewrite forallb_forall in Hb.
    specialize (Hb (j, x) (proj1 (list_elem_of_In _ _) (proj2 (elem_of_map_to_list _ _ _) Hj))).
    apply Nat.ltb_lt. exact Hb.
  - cbn in Hk. rewrite lookup_empty in Hk. discriminate.
Qed.

Lemma remove_after_fresh h p i n :
  Index p star = None -> nodes h !! 0 = Some n -> default ∅ (rules n !! p) !! i = None ->
  remove (fst (addSimpleRule h 0 p i)) (snd (addSimpleRule h 0 p i)) =
  Some (mkHeap (<[0 := withRules n (<[p := default ∅ (rules n !! p)]> (rules n))]> (nodes h))
               (<[next h := mkRule (Some 0) p i]> (ruleset h)) (S (next h))).
Proof.
  intros Hp Hn Hi. rewrite (addSimple_fresh h p i n Hn Hi). cbn [fst snd].
  unfold remove. cbn [ruleset]. rewrite lookup_insert_eq. cbn [router path id].
  rewrite (Index_none_not_star p Hp). f_equal.
  unfold removeRule. unfold node at 1. cbn [nodes path id]. rewrite lookup_insert_eq.
  cbn [default from_option Datatypes.id withRules rules]. rewrite lookup_insert_eq.
  unfold node, setNode. cbn [nodes ruleset next]. rewrite lookup_insert_eq.
  cbn [default from_option Datatypes.id withRules rules parent prefix children].
  rewrite insert_insert_eq, insert_insert_eq, delete_insert_id by exact Hi. reflexivity.
Qed.

Lemma add_remove_literal_heap h p i :
  Index p star = None -> is_Some (nodes h !! 0) -> handlesBelowNext h = true ->
  (rules (node h 0) !! p) ≫= (fun m => m !! i) = None ->
  exists h', remove (fst (router_add h 0 p i)) (snd (router_add h 0 p i)) = Some h' /\
             forall r q, resolve h' r q = resolve h r q.
Proof.
  intros Hp [n Hn] Hb Hfresh.
  assert (Hnode : node h 0 = n) by (unfold node; rewrite Hn; reflexivity).
  rewrite Hnode in Hfresh.
  assert (Hi : default ∅ (rules n !! p) !! i = None).
  { destruct (rules n !! p); cbn in *; [exact Hfresh|apply lookup_empty]. }
  assert (Hs : router_add h 0 p i = addSimpleRule h 0 p i).
  { unfold router_add. cbn [add]. rewrite Hp. reflexivity. }
  rewrite Hs, (remove_after_fresh h p i n Hp Hn Hi).
  eexists; split; [reflexivity|]. intros r q. unfold resolve. cbn [nodes].
  rewrite map_size_insert_Some by (rewrite Hn; eauto).
  set (h' := mkHeap _ _ _).
  assert (Hrid : forall x, x < next h -> ruleId h' x = ruleId h x).
  { intros x Hx. unfold ruleId. cbn [ruleset h']. rewrite lookup_insert_ne by lia. reflexivity. }
  assert (Hmap : forall rls m, (forall j x, rls !! j = Some x -> x < next h) ->
            app m (map (fun iv : string * nat => ruleId h' iv.2) (map_to_list rls)) =
            app m (map (fun iv : string * nat => ruleId h iv.2) (map_to_list rls))).
  { intros rls m Hl. f_equal. apply map_ext_in. intros [j x] Hin. cbn.
    apply Hrid. apply (Hl j). apply elem_of_map_to_list, list_elem_of_In. exact Hin. }
  apply run_congr.
  - intros r0. unfold node. cbn [nodes h']. destruct (decide (r0 = 0)) as [->|Hne].
    + rewrite lookup_insert_eq, Hn. reflexivity.
    + rewrite lookup_insert_ne by congruence. reflexivity.
  - intros r0 m k. rewrite !collectRules_eq.
    destruct (decide (r0 = 0)) as [->|Hne].
    + assert (E : node h' 0 = withRules n (<[p := default ∅ (rules n !! p)]> (rules n))).
      { unfold node. cbn [nodes h']. rewrite lookup_insert_eq. reflexivity. }
      rewrite E, Hnode. cbn [rules withRules]. destruct (decide (k = p)) as [->|Hk].
      * rewrite lookup_insert_eq. destruct (rules n !! p) as [rls|] eqn:Ep; cbn [default from_option Datatypes.id].
        -- apply Hmap. intros j x Hj. apply (handle_below h 0 p rls j x Hb); [rewrite Hnode; exact Ep|exact Hj].
        -- rewrite map_to_list_empty. cbn. apply app_nil_r.
      * rewrite lookup_insert_ne by congruence.
        destruct (rules n !! k) as [rls|] eqn:Ek; [|reflexivity].
        apply Hmap. intros j x Hj. apply (handle_below h 0 k rls j x Hb); [rewrite Hnode; exact Ek|exact Hj].
    + assert (E : node h' r0 = node h r0).
      { unfold node. cbn [nodes h']. rewrite lookup_insert_ne by congruence. reflexivity. }
      rewrite E. destruct (rules (node h r0) !! k) as [rls|] eqn:Ek; [|reflexivity].
      apply Hmap. intros j x Hj. exact (handle_below h r0 k rls j x Hb Ek Hj).
Qed.

(** Subscribe then unsubscribe: adding a fresh literal rule [(p, i)] at
    the root (no '*' in [p], no rule [rules[p][i]] yet) and removing the
    returned rule gives a heap on which every [resolve] from every node
    answers as before; the only traces are the rule object and, when the
    key was new, an empty map under [rules[p]]. *)
Theorem add_remove_literal_restores h p i :
  Index p star = None -> is_Some (nodes h !! 0) -> handlesBelowNext h = true ->
  (rules (node h 0) !! p) ≫= (fun m => m !! i) = None ->
  exists h', remove (fst (router_add h 0 p i)) (snd (router_add h 0 p i)) = Some h' /\
             forall r q, resolve h' r q = resolve h r q.
Proof. exact (add_remove_literal_heap h p i). Qed.

Lemma add_remove_literal_restores_witness :
  let h := fst (router_add (fst (router_add newHeap 0 "/a/*" "c1")) 0 "/a/b" "c2") in
  exists h', remove (fst (router_add h 0 "/b" "c3")) (snd (router_add h 0 "/b" "c3")) = Some h' /\
             forall r q, resolve h' r q = resolve h r q.
Proof.
  intros h. apply add_remove_literal_restores.
  - reflexivity.
  - vm_compute. eexists. reflexivity.
  - vm_compute. reflexivity.
  - vm_compute. reflexivity.
Defined.

Lemma add_literal_resolves_witness :
  let h := fst (router_add newHeap 0 "/foo/*" "c1") in
  In "c2" (resolve (fst (router_add h 0 "/foo/bar" "c2")) 0 "/foo/bar").
Proof.
  intros h. apply add_literal_resolves.
  - left. reflexivity.
  - intros x Hx. vm_compute in Hx. discriminate.
Defined.

Lemma remove_literal_twice_witness :
  let h := fst (router_add newHeap 0 "/a" "c") in
  remove (removeRule h 0 (mkRule (Some 0) "/a" "c")) 1 = Some (removeRule h 0 (mkRule (Some 0) "/a" "c")).
Proof.
  intros h. apply (remove_literal_twice h 1).
  - intros x Hx. vm_compute in Hx. injection Hx as <-. reflexivity.
  - vm_compute. reflexivity.
Defined.

End RouterMoreProofs.

(* ------------------------------------------------------------------ *)
(** ** Further session properties *)

Module SessionMoreProofs.

Import SessionModel SessionFacts SessionMoreFacts SessionProofs.

(** In every reachable state, one iteration of the actor's loop panics
    only with "close of nil channel", and only when no poller is
    attached and the event is a [channelTimeout] or the idle timeout: it
    never sends on a closed channel and never closes a channel twice. *)
Theorem step_panics_only_on_nil_close s ev msg :
  reachable s -> step s ev = Panic msg ->
  msg = "close of nil channel" /\ output s = None /\
  (ev = IdleTimeout \/ exists m, ev = ChannelTimeout m).
Proof.
  intros Hr Hs. pose proof (reachable_inv s Hr) as (H0 & Hb & Ho & Hl).
  destruct s as [mb out run cs nc cl]; cbn [output mailbox chans nextChan isRunning] in *.
  unfold step in Hs; cbn [isRunning output mailbox chans nextChan] in Hs.
  destruct run; [|discriminate]. cbn [negb] in Hs.
  destruct ev as [m|b|om| |]; destruct out as [c|];
    try (destruct (Ho c eq_refl) as (_ & _ & _ & bf & Hcb)).
  - rewrite Hcb in Hs. discriminate.
  - discriminate.
  - discriminate.
  - unfold convertMailboxToChannel in Hs. cbn [nextChan mailbox output isRunning chans cleanupSpawned] in Hs.
    destruct b; [discriminate|]. unfold closeChan in Hs. cbn [chans] in Hs.
    rewrite lookup_insert_eq in Hs. discriminate.
  - destruct om; unfold closeChan, setMailbox in Hs; cbn [output chans] in Hs; rewrite Hcb in Hs; discriminate.
  - destruct om; cbn in Hs; injection Hs as <-; repeat split; eauto.
  - unfold stopLoop, closeChan in Hs. cbn [output chans] in Hs. rewrite Hcb in Hs. cbn [closed buf] in Hs.
    unfold convertMailboxToChannel, setOutput, setChans in Hs. cbn [nextChan chans] in Hs.
    rewrite lookup_insert_eq in Hs. discriminate.
  - unfold stopLoop, closeChan in Hs. cbn [output chans] in Hs.
    unfold convertMailboxToChannel, setOutput, setChans in Hs. cbn [nextChan chans] in Hs.
    rewrite lookup_insert_eq in Hs. discriminate.
  - unfold stopLoop, closeChan in Hs. cbn [output chans] in Hs. rewrite Hcb in Hs. discriminate.
  - cbn in Hs. injection Hs as <-. auto.
Qed.

Lemma step_panics_only_on_nil_close_witness :
  reachable newSession /\ step newSession IdleTimeout = Panic "close of nil channel" /\
  ("close of nil channel" = "close of nil channel" /\ output newSession = None /\
   (IdleTimeout = IdleTimeout \/ exists m, IdleTimeout = ChannelTimeout m)).
Proof.
  split; [exact reach_init|]. split; [reflexivity|].
  apply (step_panics_only_on_nil_close newSession IdleTimeout); [exact reach_init|reflexivity].
Defined.

(** With no poller attached, a running session that receives upstream
    events [ms] keeps in its mailbox exactly the last MAILBOX_SIZE
    entries of the old mailbox followed by [ms], in order. *)
Theorem feed_idle_keeps_last s ms :
  reachable s -> isRunning s = true -> output s = None ->
  feed s ms = Next (setMailbox s (lastN MAILBOX_SIZE (app (mailbox s) ms))) None.
Proof. exact (feed_idle_lastN s ms). Qed.

Lemma feed_idle_keeps_last_witness :
  reachable fullSession /\ isRunning fullSession = true /\ output fullSession = None /\
  feed fullSession [msgB; msgA]
    = Next (setMailbox fullSession (lastN MAILBOX_SIZE (app (mailbox fullSession) [msgB; msgA]))) None /\
  lastN MAILBOX_SIZE (app (mailbox fullSession) [msgB; msgA])
    = app (repeat msgA (MAILBOX_SIZE - 2)) [msgB; msgA].
Proof.
  assert (Hr : reachable fullSession).
  { apply (feed_reachable newSession (repeat msgA MAILBOX_SIZE) fullSession None reach_init).
    vm_compute. reflexivity. }
  assert (Hu : isRunning fullSession = true) by (vm_compute; reflexivity).
  assert (Ho : output fullSession = None) by (vm_compute; reflexivity).
  split; [exact Hr|]. split; [exact Hu|]. split; [exact Ho|].
  split; [exact (feed_idle_keeps_last fullSession [msgB; msgA] Hr Hu Ho)|].
  vm_compute. reflexivity.
Defined.

(** A channel request to a running session without a poller returns a
    fresh channel, distinct from [closedChannel], that holds the mailbox
    in order and is closed exactly for a non-connect request; the
    mailbox is emptied, no other channel changes, and the channel stays
    attached as [output] exactly for a connect request. *)
Theorem attach_when_idle s b :
  reachable s -> isRunning s = true -> output s = None ->
  exists s' c, step s (ChannelReq b) = Next s' (Some c) /\
    c <> closedChannel /\ chans s !! c = None /\
    chans s' !! c = Some (mkChan (mailbox s) (negb b)) /\
    (forall c', c' <> c -> chans s' !! c' = chans s !! c') /\
    mailbox s' = [] /\ output s' = (if b then Some c else None) /\ isRunning s' = true.
Proof.
  intros Hr Hrun Hout. pose proof (reachable_inv s Hr) as Hi.
  pose proof (fresh_none s Hi) as Hfr. destruct Hi as (H0 & _ & _ & _).
  assert (Hc0 : nextChan s <> closedChannel) by (intros E; rewrite E, H0 in Hfr; discriminate).
  unfold step. rewrite Hrun, Hout. cbn [negb]. unfold convertMailboxToChannel.
  destruct b.
  - eexists _, _. split; [reflexivity|]. unfold setOutput; cbn [chans mailbox output isRunning].
    split; [exact Hc0|]. split; [exact Hfr|]. split; [apply lookup_insert_eq|].
    split; [intros c' Hne; apply lookup_insert_ne; congruence|]. auto.
  - unfold closeChan. cbn [chans]. rewrite lookup_insert_eq. cbn [closed buf].
    eexists _, _. split; [reflexivity|]. unfold setChans; cbn [chans mailbox output isRunning].
    split; [exact Hc0|]. split; [exact Hfr|]. rewrite insert_insert_eq.
    split; [apply lookup_insert_eq|].
    split; [intros c' Hne; apply lookup_insert_ne; congruence|]. rewrite Hout, Hrun. auto.
Qed.

Lemma attach_when_idle_witness :
  (reachable twoMsgSession /\ isRunning twoMsgSession = true /\ output twoMsgSession = None /\
   mailbox twoMsgSession = [msgA; msgB]) /\
  (exists s' c, step twoMsgSession (ChannelReq true) = Next s' (Some c) /\
    c <> closedChannel /\ chans twoMsgSession !! c = None /\
    chans s' !! c = Some (mkChan [msgA; msgB] false) /\
    (forall c', c' <> c -> chans s' !! c' = chans twoMsgSession !! c') /\
    mailbox s' = [] /\ output s' = Some c /\ isRunning s' = true) /\
  (exists s' c, step twoMsgSession (ChannelReq false) = Next s' (Some c) /\
    c <> closedChannel /\ chans twoMsgSession !! c = None /\
    chans s' !! c = Some (mkChan [msgA; msgB] true) /\
    (forall c', c' <> c -> chans s' !! c' = chans twoMsgSession !! c') /\
    mailbox s' = [] /\ output s' = None /\ isRunning s' = true).
Proof.
  assert (R2 : reachable twoMsgSession).
  { apply (feed_reachable newSession [msgA; msgB] twoMsgSession None reach_init). vm_compute. reflexivity. }
  assert (U2 : isRunning twoMsgSession = true) by (vm_compute; reflexivity).
  assert (O2 : output twoMsgSession = None) by (vm_compute; reflexivity).
  assert (M2 : mailbox twoMsgSession = [msgA; msgB]) by (vm_compute; reflexivity).
  split; [split; [exact R2|split; [exact U2|split; [exact O2|exact M2]]]|].
  split.
  - destruct (attach_when_idle twoMsgSession true R2 U2 O2) as (s' & c & H1 & H2 & H3 & H4 & H5 & H6 & H7 & H8).
    rewrite M2 in H4. exists s', c. repeat split; assumption.
  - destruct (attach_when_idle twoMsgSession false R2 U2 O2) as (s' & c & H1 & H2 & H3 & H4 & H5 & H6 & H7 & H8).
    rewrite M2 in H4. exists s', c. repeat split; assumption.
Defined.

(** In every reachable state, a step of the actor leaves every closed
    channel as it is: values are never sent to a closed channel and a
    closed channel is never reopened. *)
Theorem closed_channel_untouched s ev s' r c b :
  reachable s -> chans s !! c = Some (mkChan b true) -> step s ev = Next s' r ->
  chans s' !! c = Some (mkChan b true).
Proof.
  intros Hr Hc Hs. pose proof (reachable_inv s Hr) as Hi.
  pose proof (fresh_ne s c _ Hi Hc) as Hcn. destruct Hi as (H0 & Hb & Ho & Hl).
  assert (Hopen : forall c0 bf, chans s !! c0 = Some (mkChan bf false) -> c0 <> c)
    by (intros c0 bf E ->; rewrite Hc in E; discriminate).
  destruct s as [mb out run cs nc cl]; cbn [output mailbox chans nextChan isRunning] in *.
  unfold step in Hs; cbn [isRunning output mailbox chans nextChan] in Hs.
  destruct run; [|discriminate]. cbn [negb] in Hs.
  destruct ev as [m|bb|om| |]; destruct out as [c0|];
    try (destruct (Ho c0 eq_refl) as (_ & _ & _ & bf & Hcb); pose proof (Hopen _ _ Hcb) as Hne).
  - rewrite Hcb in Hs. cbn [closed buf] in Hs. injection Hs as <- _. cbn [chans setChans].
    rewrite lookup_insert_ne by congruence. exact Hc.
  - injection Hs as <- _. exact Hc.
  - injection Hs as <- _. exact Hc.
  - unfold convertMailboxToChannel in Hs. cbn [nextChan mailbox output isRunning chans cleanupSpawned] in Hs.
    destruct bb.
    + injection Hs as <- _. cbn. rewrite lookup_insert_ne by congruence. exact Hc.
    + unfold closeChan in Hs. cbn [chans] in Hs. rewrite lookup_insert_eq in Hs. cbn in Hs.
      injection Hs as <- _. cbn. rewrite lookup_insert_ne by congruence.
      rewrite lookup_insert_ne by congruence. exact Hc.
  - destruct om; unfold closeChan, setMailbox in Hs; cbn [output chans] in Hs; rewrite Hcb in Hs;
      cbn in Hs; injection Hs as <- _; cbn; rewrite lookup_insert_ne by congruence; exact Hc.
  - destruct om; discriminate.
  - unfold stopLoop, closeChan in Hs. cbn [output chans] in Hs. rewrite Hcb in Hs. cbn [closed buf] in Hs.
    unfold convertMailboxToChannel, setOutput, setChans in Hs. cbn [nextChan chans] in Hs.
    rewrite lookup_insert_eq in Hs. cbn in Hs. injection Hs as <- _. cbn.
    rewrite !lookup_insert_ne by congruence. exact Hc.
  - unfold stopLoop, closeChan in Hs. cbn [output chans] in Hs.
    unfold convertMailboxToChannel, setOutput, setChans in Hs. cbn [nextChan chans] in Hs.
    rewrite lookup_insert_eq in Hs. cbn in Hs. injection Hs as <- _. cbn.
    rewrite !lookup_insert_ne by congruence. exact Hc.
  - unfold stopLoop, closeChan in Hs. cbn [output chans] in Hs. rewrite Hcb in Hs. cbn in Hs.
    injection Hs as <- _. cbn. rewrite lookup_insert_ne by congruence. exact Hc.
  - discriminate.
Qed.

Lemma closed_channel_untouched_witness :
  reachable connectedSession /\ chans connectedSession !! closedChannel = Some (mkChan [] true) /\
  step connectedSession (Upstream msgA) = Next (afterOutcome (step connectedSession (Upstream msgA))) None /\
  chans (afterOutcome (step connectedSession (Upstream msgA))) !! closedChannel = Some (mkChan [] true).
Proof.
  assert (Hr : reachable connectedSession) by (apply (reach_step newSession (ChannelReq true) connectedSession (Some 1) reach_init); reflexivity).
  split; [exact Hr|]. split; [reflexivity|]. split; [reflexivity|].
  apply (closed_channel_untouched connectedSession (Upstream msgA) _ None); [exact Hr|reflexivity|reflexivity].
Defined.

End SessionMoreProofs.

(* ------------------------------------------------------------------ *)
(** ** Server verbs *)

Module VerbProofs.
Import RouterModel SessionModel PoolModel ServerModel ScenarioData ServerVerbs MoreScenarios.

(** After a successful [disconnect(clientId)], a [connect] with the same
    id answers no channel and [ok = false]: the session is gone, while the
    id stays in the pool. *)
Theorem connect_after_disconnect st now now' cid st' ch :
  disconnect st now cid = SReturn st' ch true ->
  exists st'', connect st' now' cid = SReturn st'' None false /\
    values (names st'') !! cid <> None /\ sessions st'' !! cid = None.
Proof.
  unfold disconnect. destruct (touch (names st) cid now) as [names' ok] eqn:Ht.
  destruct ok; cbn [negb]; [|discriminate].
  cbn [sessions]. destruct (sessions st !! cid) as [ss|] eqn:Hs; [|discriminate].
  assert (Hin : values names' !! cid <> None).
  { unfold touch in Ht. destruct (values (names st) !! cid); [|discriminate].
    injection Ht as <-. cbn [values]. rewrite lookup_insert_eq. discriminate. }
  destruct (step ss ChannelClose) as [s r| |]; try discriminate.
  intros Heq. injection Heq as Hst _. subst st'. unfold connect. cbn [names sessions broker].
  unfold touch at 1. destruct (values names' !! cid) as [e|] eqn:He; [|congruence].
  cbn [negb]. rewrite lookup_delete_eq. eexists. split; [reflexivity|].
  cbn [values names sessions]. split; [rewrite lookup_insert_eq; discriminate|apply lookup_delete_eq].
Qed.

Lemma connect_after_disconnect_witness :
  disconnect serverA 0 "a" = SReturn serverAGone (Some 1) true /\
  exists st'', connect serverAGone 5 "a" = SReturn st'' None false /\
    values (names st'') !! "a" <> None /\ sessions st'' !! "a" = None.
Proof.
  assert (H : disconnect serverA 0 "a" = SReturn serverAGone (Some 1) true) by (vm_compute; reflexivity).
  split; [exact H|]. exact (connect_after_disconnect serverA 0 5 "a" serverAGone (Some 1) H).
Defined.

End VerbProofs.

(* ------------------------------------------------------------------ *)
(** ** The broker of message_test.go *)

Module SimpleBrokerProofs.
Import RouterModel RouterQueries RouterMoreProofs SimpleBrokerModel MoreScenarios.

Lemma send_clients b c msg b1 : send b c msg = BNext b1 -> clients b1 = clients b.
Proof.
  unfold send. destruct (clients b !! c) as [ch|]; [|discriminate].
  destruct (bchans b !! ch) as [sc|]; [|discriminate].
  destruct (sclosed sc); [discriminate|]. intros [= <-]. reflexivity.
Qed.

Lemma sendAll_stuck b cs msg c :
  clients b !! c = None -> In c cs -> forall b'', sendAll b cs msg <> BNext b''.
Proof.
  revert b. induction cs as [|c0 cs IH]; intros b Hc Hin b''; [destruct Hin|].
  cbn [sendAll]. destruct Hin as [->|Hin].
  - unfold send at 1. rewrite Hc. discriminate.
  - destruct (send b c0 msg) as [b1| |] eqn:Hs; try discriminate.
    apply IH; [rewrite (send_clients _ _ _ _ Hs); exact Hc|exact Hin].
Qed.

(** [deregister(clientId)] closes the client's channel (keeping what it
    holds) and forgets the client, but leaves its rules in the router:
    for a path the client was subscribed to, a later [broadcast] sends on
    the nil channel of the missing client and never completes. *)
Theorem deregister_keeps_routes b cid b' p m :
  deregister b cid = BNext b' -> In cid (resolve (brouter b) 0 p) ->
  brouter b' = brouter b /\ clients b' !! cid = None /\
  (forall ch sc, clients b !! cid = Some ch -> bchans b !! ch = Some sc ->
     bchans b' !! ch = Some (mkSChan (sbuf sc) true)) /\
  forall b'', broadcast b' p m <> BNext b''.
Proof.
  intros Hd Hin.
  assert (H : brouter b' = brouter b /\ clients b' !! cid = None /\
    (forall ch sc, clients b !! cid = Some ch -> bchans b !! ch = Some sc ->
       bchans b' !! ch = Some (mkSChan (sbuf sc) true))).
  { unfold deregister in Hd. destruct (clients b !! cid) as [ch|] eqn:Hc.
    - destruct (bchans b !! ch) as [sc|] eqn:Hs; [|discriminate].
      destruct (sclosed sc); [discriminate|]. injection Hd as <-. cbn.
      split; [reflexivity|]. split; [apply lookup_delete_eq|].
      intros ch' sc' [= <-] Hs'. rewrite Hs in Hs'. injection Hs' as <-. apply lookup_insert_eq.
    - injection Hd as <-. cbn. split; [reflexivity|]. split; [exact Hc|]. intros ch sc [=]. }
  destruct H as (Hr & Hc & Hch). split; [exact Hr|]. split; [exact Hc|]. split; [exact Hch|].
  unfold broadcast. rewrite Hr. exact (sendAll_stuck _ _ _ _ Hc Hin).
Qed.

(** [subscribe] then [unsubscribe] of a registered client on a fresh
    path without '*' restores every [resolve] of the router, and leaves
    the clients, the per-client rule maps and the channels as before. *)
Theorem subscribe_unsubscribe_restores b cid p m :
  clients b !! cid <> None -> brules b !! cid = Some m -> m !! p = None ->
  Index p star = None -> is_Some (nodes (brouter b) !! 0) -> handlesBelowNext (brouter b) = true ->
  (rules (node (brouter b) 0) !! p) ≫= (fun rs => rs !! cid) = None ->
  exists b', match subscribe b cid p with BNext b1 => unsubscribe b1 cid p | o => o end = BNext b' /\
    (forall r q, resolve (brouter b') r q = resolve (brouter b) r q) /\
    clients b' = clients b /\ brules b' = brules b /\ bchans b' = bchans b.
Proof.
  intros Hc Hm Hmp Hp Hroot Hb Hfresh.
  destruct (add_remove_literal_heap (brouter b) p cid Hp Hroot Hb Hfresh) as (h' & Hrm & Hres).
  unfold subscribe. destruct (clients b !! cid) as [u|] eqn:Hcl; [|congruence].
  destruct (router_add (brouter b) 0 p cid) as [h1 rule] eqn:Hadd. cbn [fst snd] in Hrm.
  rewrite Hm. unfold unsubscribe. cbn [clients brules brouter bchans nextCh]. rewrite Hcl.
  rewrite lookup_insert_eq, lookup_insert_eq, Hrm.
  eexists. split; [reflexivity|]. cbn [clients brules brouter bchans].
  split; [exact Hres|]. split; [reflexivity|]. split; [|reflexivity].
  rewrite insert_insert_eq, delete_insert_id by exact Hmp. apply insert_id. exact Hm.
Qed.

Lemma deregister_keeps_routes_witness :
  deregister tbSubscribed "client" = BNext tbDeregistered /\
  In "client" (resolve (brouter tbSubscribed) 0 "/foo/bar") /\
  clients tbSubscribed !! "client" = Some 0 /\ bchans tbSubscribed !! 0 = Some (mkSChan [] false) /\
  (brouter tbDeregistered = brouter tbSubscribed /\ clients tbDeregistered !! "client" = None /\
   bchans tbDeregistered !! 0 = Some (mkSChan [] true) /\
   forall b'', broadcast tbDeregistered "/foo/bar" "hello" <> BNext b'').
Proof.
  assert (H1 : deregister tbSubscribed "client" = BNext tbDeregistered) by (vm_compute; reflexivity).
  assert (H2 : In "client" (resolve (brouter tbSubscribed) 0 "/foo/bar")) by (vm_compute; left; reflexivity).
  assert (H3 : clients tbSubscribed !! "client" = Some 0) by (vm_compute; reflexivity).
  assert (H4 : bchans tbSubscribed !! 0 = Some (mkSChan [] false)) by (vm_compute; reflexivity).
  split; [exact H1|]. split; [exact H2|]. split; [exact H3|]. split; [exact H4|].
  destruct (deregister_keeps_routes tbSubscribed "client" tbDeregistered "/foo/bar" "hello" H1 H2)
    as (Hr & Hc & Hch & Hb).
  split; [exact Hr|]. split; [exact Hc|]. split; [exact (Hch 0 _ H3 H4)|exact Hb].
Defined.

Lemma subscribe_unsubscribe_restores_witness :
  exists b', match SimpleBrokerModel.subscribe tbSubscribed "client" "/foo/baz" with
             | BNext b1 => SimpleBrokerModel.unsubscribe b1 "client" "/foo/baz" | o => o end = BNext b' /\
    (forall r q, resolve (brouter b') r q = resolve (brouter tbSubscribed) r q) /\
    clients b' = clients tbSubscribed /\ brules b' = brules tbSubscribed /\ bchans b' = bchans tbSubscribed.
Proof.
  apply (subscribe_unsubscribe_restores tbSubscribed "client" "/foo/baz" {["/foo/bar" := 1]}).
  - vm_compute. discriminate.
  - vm_compute. reflexivity.
  - vm_compute. reflexivity.
  - reflexivity.
  - vm_compute. eexists. reflexivity.
  - vm_compute. reflexivity.
  - vm_compute. reflexivity.
Defined.

End SimpleBrokerProofs.


Module RouterStringProofs.

Import GoStrings RouterModel RouterQueries RouterProofs RouterMoreProofs RouterString.

Lemma in_map_to_list {K A} `{Countable K} (m : gmap K A) k v :
  m !! k = Some v -> In (k, v) (map_to_list m).
Proof. intros Hk. apply list_elem_of_In, elem_of_map_to_list. exact Hk. Qed.

Lemma in_map_to_list_inv {K A} `{Countable K} (m : gmap K A) k v :
  In (k, v) (map_to_list m) -> m !! k = Some v.
Proof. intros Hk. apply elem_of_map_to_list, list_elem_of_In. exact Hk. Qed.

Lemma node_some h a n : nodes h !! a = Some n -> node h a = n.
Proof. intros Ha. unfold node. rewrite Ha. reflexivity. Qed.

Lemma ruleOK_mono ex h h' a k x :
  (forall y, ruleset h !! x = Some y -> ruleset h' !! x = Some y) ->
  (~ attached h a -> ~ attached h' a) -> ruleOK ex h a k x -> ruleOK ex h' a k x.
Proof.
  intros Hr Hd (y & Hy & Hp & Ho). exists y. split; [auto|]. split; [exact Hp|].
  destruct Ho as [Ho|(Hn & [He|He])]; [left; exact Ho|right; auto|right; auto].
Qed.

Lemma Ext_refl h : Ext h h.
Proof. split; [intros a n Ha; eauto|auto|intros; reflexivity]. Qed.

Lemma Ext_some h h' a : Ext h h' -> is_Some (nodes h !! a) -> is_Some (nodes h' !! a).
Proof. intros E [n Ha]. destruct (e_node _ _ E a n Ha) as (n' & H & _). eauto. Qed.

Lemma Ext_trans h1 h2 h3 : Ext h1 h2 -> Ext h2 h3 -> Ext h1 h3.
Proof.
  intros E1 E2. split.
  - intros a n Ha. destruct (e_node _ _ E1 a n Ha) as (n2 & H2 & P2 & Q2).
    destruct (e_node _ _ E2 a n2 H2) as (n3 & H3 & P3 & Q3). exists n3. split; [exact H3|]. split; congruence.
  - intros x y Hx. apply (e_rule _ _ E2), (e_rule _ _ E1), Hx.
  - intros a Ha. rewrite (e_att _ _ E2 a (Ext_some _ _ _ E1 Ha)). exact (e_att _ _ E1 a Ha).
Qed.

Lemma TreeInv_weaken ex h : TreeInv None h -> TreeInv ex h.
Proof.
  intros Hi. split; try exact (t_below _ _ Hi); try exact (t_parent _ _ Hi);
    try exact (t_child _ _ Hi); try exact (t_rs_below _ _ Hi).
  intros a n k m j x Ha Hk Hj. destruct (t_rule _ _ Hi a n k m j x Ha Hk Hj) as [Hx (y & Hy & Hp & Ho)].
  split; [exact Hx|]. exists y. split; [exact Hy|]. split; [exact Hp|].
  destruct Ho as [Ho|(Hn & [He|He])]; [left; exact Ho|discriminate|right; auto].
Qed.

Lemma TreeInv_drop r h : TreeInv (Some r) h -> ~ attached h r -> TreeInv None h.
Proof.
  intros Hi Hd. split; try exact (t_below _ _ Hi); try exact (t_parent _ _ Hi);
    try exact (t_child _ _ Hi); try exact (t_rs_below _ _ Hi).
  intros a n k m j x Ha Hk Hj. destruct (t_rule _ _ Hi a n k m j x Ha Hk Hj) as [Hx (y & Hy & Hp & Ho)].
  split; [exact Hx|]. exists y. split; [exact Hy|]. split; [exact Hp|].
  destruct Ho as [Ho|(Hn & [He|He])]; [left; exact Ho| |right; auto].
  injection He as <-. right. split; [exact Hn|right; exact Hd].
Qed.

Lemma lookup_setNode h a n' b :
  nodes (setNode h a n') !! b = if decide (b = a) then Some n' else nodes h !! b.
Proof.
  unfold setNode; cbn [nodes]. destruct (decide (b = a)) as [->|Hne].
  - apply lookup_insert_eq.
  - apply lookup_insert_ne. congruence.
Qed.

Lemma node_setNode_dec h a n' b :
  node (setNode h a n') b = if decide (b = a) then n' else node h b.
Proof. unfold node. rewrite lookup_setNode. destruct (decide (b = a)); reflexivity. Qed.

Lemma attached_setNode h a n n' :
  nodes h !! a = Some n -> parent n' = parent n -> prefix n' = prefix n -> children n' = children n ->
  forall b, attached (setNode h a n') b <-> attached h b.
Proof.
  intros Ha Hp Hq Hc b. unfold attached.
  assert (Hn : forall c, parent (node (setNode h a n') c) = parent (node h c) /\
                         prefix (node (setNode h a n') c) = prefix (node h c) /\
                         children (node (setNode h a n') c) = children (node h c)).
  { intros c. rewrite node_setNode_dec. destruct (decide (c = a)) as [->|]; [|auto].
    rewrite (node_some h a n Ha). auto. }
  destruct (Hn b) as (-> & -> & _). destruct (parent (node h b)) as [p|]; [|reflexivity].
  destruct (Hn p) as (_ & _ & ->). reflexivity.
Qed.

Lemma setNode_node h a n n' :
  nodes h !! a = Some n -> parent n' = parent n -> prefix n' = prefix n ->
  forall b m, nodes h !! b = Some m ->
  exists m', nodes (setNode h a n') !! b = Some m' /\ parent m' = parent m /\ prefix m' = prefix m.
Proof.
  intros Ha Hp Hq b m Hb. rewrite lookup_setNode. destruct (decide (b = a)) as [->|].
  - rewrite Ha in Hb. injection Hb as <-. eauto.
  - eauto.
Qed.

Lemma Ext_setNode h a n n' :
  nodes h !! a = Some n -> parent n' = parent n -> prefix n' = prefix n -> children n' = children n ->
  Ext h (setNode h a n').
Proof.
  intros Ha Hp Hq Hc. split.
  - exact (setNode_node h a n n' Ha Hp Hq).
  - intros x y Hx. exact Hx.
  - intros b _. exact (attached_setNode h a n n' Ha Hp Hq Hc b).
Qed.

Lemma nonempty_rules (n : Router) k m : rules n !! k = Some m -> rules n <> ∅.
Proof. intros Hk E. rewrite E, lookup_empty in Hk. discriminate. Qed.

Lemma setNode_inv ex h a n n' :
  TreeInv ex h -> nodes h !! a = Some n -> parent n' = parent n -> prefix n' = prefix n ->
  (forall k c, children n' !! k = Some c ->
     exists m, nodes h !! c = Some m /\ parent m = Some a /\ prefix m = k) ->
  (forall b mb, nodes h !! b = Some mb -> (rules mb <> ∅ \/ b = a) ->
     ~ attached h b -> ~ attached (setNode h a n') b) ->
  (forall k m j x, rules n' !! k = Some m -> m !! j = Some x -> x < next h /\ ruleOK ex h a k x) ->
  TreeInv ex (setNode h a n').
Proof.
  intros Hi Ha Hp Hq Hc Hdet Hr.
  assert (Hsome : forall b, is_Some (nodes h !! b) -> is_Some (nodes (setNode h a n') !! b)).
  { intros b Hb. rewrite lookup_setNode. destruct (decide (b = a)); eauto. }
  split.
  - intros b m Hb. rewrite lookup_setNode in Hb. unfold setNode; cbn [next].
    destruct (decide (b = a)) as [->|]; [exact (t_below _ h Hi a n Ha)|exact (t_below _ h Hi b m Hb)].
  - intros b m c Hb Hpc. rewrite lookup_setNode in Hb. destruct (decide (b = a)) as [->|].
    + injection Hb as <-. rewrite Hp in Hpc. destruct (t_parent _ h Hi a n c Ha Hpc) as [Hlt Hs].
      split; [exact Hlt|apply Hsome; exact Hs].
    + destruct (t_parent _ h Hi b m c Hb Hpc) as [Hlt Hs]. split; [exact Hlt|apply Hsome; exact Hs].
  - intros b m k c Hb Hk. rewrite lookup_setNode in Hb.
    assert (Hold : exists m0, nodes h !! c = Some m0 /\ parent m0 = Some b /\ prefix m0 = k).
    { destruct (decide (b = a)) as [->|].
      - injection Hb as <-. exact (Hc k c Hk).
      - exact (t_child _ h Hi b m k c Hb Hk). }
    destruct Hold as (m0 & Hm0 & Hpm & Hqm). rewrite lookup_setNode.
    destruct (decide (c = a)) as [->|].
    + rewrite Ha in Hm0. injection Hm0 as <-. exists n'. split; [reflexivity|]. split; congruence.
    + exists m0. auto.
  - intros b m k rls j x Hb Hk Hj. rewrite lookup_setNode in Hb. unfold setNode at 1; cbn [next].
    destruct (decide (b = a)) as [->|].
    + injection Hb as <-. destruct (Hr k rls j x Hk Hj) as [Hx Ho]. split; [exact Hx|].
      refine (ruleOK_mono ex h _ a k x _ _ Ho); [intros y Hy; exact Hy|].
      exact (Hdet a n Ha (or_intror eq_refl)).
    + destruct (t_rule _ h Hi b m k rls j x Hb Hk Hj) as [Hx Ho]. split; [exact Hx|].
      refine (ruleOK_mono ex h _ b k x _ _ Ho); [intros y Hy; exact Hy|].
      exact (Hdet b m Hb (or_introl (nonempty_rules m k rls Hk))).
  - intros x y Hx. exact (t_rs_below _ h Hi x y Hx).
Qed.

Lemma attached_addNode ex h r pre :
  TreeInv ex h ->
  forall b, is_Some (nodes h !! b) ->
  (attached (mkHeap (<[next h := mkRouter (Some r) pre ∅ ∅]> (nodes h)) (ruleset h) (S (next h))) b
   <-> attached h b).
Proof.
  intros Hi b [nb Hb]. unfold attached.
  set (h' := mkHeap _ _ _).
  assert (Hbn : b <> next h) by (pose proof (t_below _ h Hi b nb Hb); lia).
  assert (E : node h' b = nb).
  { apply node_some. cbn [h' nodes]. rewrite (lookup_insert_ne _ _ _ _ (not_eq_sym Hbn)). exact Hb. }
  rewrite E, (node_some h b nb Hb).
  destruct (parent nb) as [p|] eqn:Hp; [|reflexivity].
  destruct (t_parent _ h Hi b nb p Hb Hp) as [_ [np Hnp]].
  assert (Hpn : p <> next h) by (pose proof (t_below _ h Hi p np Hnp); lia).
  assert (E2 : node h' p = np).
  { apply node_some. cbn [h' nodes]. rewrite (lookup_insert_ne _ _ _ _ (not_eq_sym Hpn)). exact Hnp. }
  rewrite E2, (node_some h p np Hnp). reflexivity.
Qed.

Lemma addNode_inv ex h r pre :
  TreeInv ex h -> is_Some (nodes h !! r) ->
  TreeInv ex (mkHeap (<[next h := mkRouter (Some r) pre ∅ ∅]> (nodes h)) (ruleset h) (S (next h))) /\
  Ext h (mkHeap (<[next h := mkRouter (Some r) pre ∅ ∅]> (nodes h)) (ruleset h) (S (next h))).
Proof.
  intros Hi Hr. set (N := next h).
  assert (Hlk : forall b, (<[N := mkRouter (Some r) pre ∅ ∅]> (nodes h)) !! b =
                 if decide (b = N) then Some (mkRouter (Some r) pre ∅ ∅) else nodes h !! b).
  { intros b. destruct (decide (b = N)) as [->|Hne].
    - apply lookup_insert_eq.
    - apply lookup_insert_ne. congruence. }
  assert (Hsome : forall b, is_Some (nodes h !! b) ->
                  is_Some ((<[N := mkRouter (Some r) pre ∅ ∅]> (nodes h)) !! b)).
  { intros b Hb. rewrite Hlk. destruct (decide (b = N)); eauto. }
  pose proof (attached_addNode ex h r pre Hi) as Hatt.
  split.
  - split; cbn [nodes next ruleset].
    + intros b m Hb. rewrite Hlk in Hb. destruct (decide (b = N)) as [->|]; [lia|].
      pose proof (t_below _ h Hi b m Hb). unfold N in *. lia.
    + intros b m c Hb Hpc. rewrite Hlk in Hb. destruct (decide (b = N)) as [->|].
      * injection Hb as <-. cbn in Hpc. injection Hpc as <-. destruct Hr as [nr Hr].
        split; [exact (t_below _ h Hi r nr Hr)|apply Hsome; eauto].
      * destruct (t_parent _ h Hi b m c Hb Hpc) as [Hlt Hs]. split; [exact Hlt|apply Hsome; exact Hs].
    + intros b m k c Hb Hk. rewrite Hlk in Hb. destruct (decide (b = N)) as [->|].
      * injection Hb as <-. cbn in Hk. rewrite lookup_empty in Hk. discriminate.
      * destruct (t_child _ h Hi b m k c Hb Hk) as (m0 & Hm0 & Hpm & Hqm). exists m0.
        rewrite Hlk. destruct (decide (c = N)) as [->|]; [|auto].
        pose proof (t_below _ h Hi N m0 Hm0). unfold N in *. lia.
    + intros b m k rls j x Hb Hk Hj. rewrite Hlk in Hb. destruct (decide (b = N)) as [->|].
      * injection Hb as <-. cbn in Hk. rewrite lookup_empty in Hk. discriminate.
      * destruct (t_rule _ h Hi b m k rls j x Hb Hk Hj) as [Hx Ho]. split; [unfold N in *; lia|].
        refine (ruleOK_mono ex h _ b k x _ _ Ho); [intros y Hy; exact Hy|].
        intros Hd Ha'. apply Hd. exact (proj1 (Hatt b (ex_intro _ m Hb)) Ha').
    + intros x y Hx. pose proof (t_rs_below _ h Hi x y Hx). unfold N in *. lia.
  - split.
    + intros b m Hb. cbn [nodes]. rewrite Hlk. destruct (decide (b = N)) as [->|].
      * pose proof (t_below _ h Hi N m Hb). unfold N in *. lia.
      * exists m. auto.
    + intros x y Hx. exact Hx.
    + exact Hatt.
Qed.

Lemma obtainSubRouter_inv ex h r pre :
  TreeInv ex h -> is_Some (nodes h !! r) ->
  let '(h1, r2, ex') := obtainSubRouter h r pre in
  TreeInv ex h1 /\ Ext h h1 /\ attached h1 r2 /\
  exists m, nodes h1 !! r2 = Some m /\ parent m = Some r /\ prefix m = pre.
Proof.
  intros Hi [n Hn]. unfold obtainSubRouter. rewrite (node_some h r n Hn).
  destruct (children n !! pre) as [r2|] eqn:Hc.
  - destruct (t_child _ h Hi r n pre r2 Hn Hc) as (m & Hm & Hpm & Hqm).
    split; [exact Hi|]. split; [apply Ext_refl|]. split; [|eauto].
    unfold attached. rewrite (node_some h r2 m Hm), Hpm, Hqm, (node_some h r n Hn). exact Hc.
  - destruct (addNode_inv ex h r pre Hi (ex_intro _ n Hn)) as [Hi0 E0].
    set (h0 := mkHeap _ _ _) in Hi0, E0 |- *.
    set (N := next h) in *.
    assert (HrN : r <> N) by (pose proof (t_below _ h Hi r n Hn); unfold N; lia).
    assert (Hn0 : nodes h0 !! r = Some n).
    { cbn [h0 nodes]. rewrite lookup_insert_ne by congruence. exact Hn. }
    assert (HN : nodes h0 !! N = Some (mkRouter (Some r) pre ∅ ∅)).
    { cbn [h0 nodes]. apply lookup_insert_eq. }
    set (n1 := withChildren n (<[pre := N]> (children n))).
    assert (Hatt1 : forall b, b <> N -> is_Some (nodes h0 !! b) ->
              (attached (setNode h0 r n1) b <-> attached h0 b)).
    { intros b HbN _. unfold attached.
      assert (Hpq : forall c, parent (node (setNode h0 r n1) c) = parent (node h0 c) /\
                              prefix (node (setNode h0 r n1) c) = prefix (node h0 c)).
      { intros c. rewrite node_setNode_dec. destruct (decide (c = r)) as [->|]; [|auto].
        rewrite (node_some h0 r n Hn0). auto. }
      destruct (Hpq b) as (-> & ->). destruct (parent (node h0 b)) as [p|]; [|reflexivity].
      rewrite node_setNode_dec. destruct (decide (p = r)) as [->|]; [|reflexivity].
      rewrite (node_some h0 r n Hn0). cbn [n1 children withChildren].
      destruct (decide (prefix (node h0 b) = pre)) as [Hk|Hk].
      - rewrite Hk, lookup_insert_eq, Hc. split; intros E; [injection E as E; congruence|discriminate].
      - rewrite lookup_insert_ne by congruence. reflexivity. }
    pose proof (setNode_inv ex h0 r n n1 Hi0 Hn0 eq_refl eq_refl) as Hi1.
    assert (Hi1' : TreeInv ex (setNode h0 r n1)).
    { apply Hi1.
      - intros k c Hk. cbn [n1 children withChildren] in Hk. destruct (decide (k = pre)) as [->|Hne].
        + rewrite lookup_insert_eq in Hk. injection Hk as <-. eexists. split; [exact HN|]. auto.
        + rewrite lookup_insert_ne in Hk by congruence.
          destruct (t_child _ h Hi r n k c Hn Hk) as (m & Hm & Hpm & Hqm).
          destruct (e_node _ _ E0 c m Hm) as (m' & Hm' & P & Q). exists m'. split; [exact Hm'|]. split; congruence.
      - intros b mb Hb Hne Hd Ha. apply Hd.
        assert (HbN : b <> N).
        { intros ->. rewrite HN in Hb. injection Hb as <-. destruct Hne as [Hne| ->]; [|exact (HrN eq_refl)].
          apply Hne. reflexivity. }
        exact (proj1 (Hatt1 b HbN (ex_intro _ mb Hb)) Ha).
      - intros k m j x Hk Hj. cbn [rules withChildren n1] in Hk. exact (t_rule _ h0 Hi0 r n k m j x Hn0 Hk Hj). }
    split; [exact Hi1'|]. split.
    + split.
      * intros b m Hb. destruct (e_node _ _ E0 b m Hb) as (m0 & Hm0 & P0 & Q0).
        destruct (setNode_node h0 r n n1 Hn0 eq_refl eq_refl b m0 Hm0) as (m1 & Hm1 & P1 & Q1).
        exists m1. split; [exact Hm1|]. split; congruence.
      * intros x y Hx. exact Hx.
      * intros b Hb. assert (HbN : b <> N) by (destruct Hb as [nb Hb]; pose proof (t_below _ h Hi b nb Hb); unfold N; lia).
        exact (iff_trans (Hatt1 b HbN (Ext_some _ _ _ E0 Hb)) (e_att _ _ E0 b Hb)).
    + split.
      * unfold attached. rewrite node_setNode_dec. destruct (decide (N = r)) as [E|_]; [congruence|].
        rewrite (node_some h0 N _ HN). cbn [parent prefix]. rewrite node_setNode_dec.
        destruct (decide (r = r)) as [_|]; [|congruence]. cbn [n1 children withChildren].
        apply lookup_insert_eq.
      * exists (mkRouter (Some r) pre ∅ ∅). rewrite lookup_setNode.
        destruct (decide (N = r)) as [E|_]; [congruence|]. auto.
Qed.

Lemma foldl_delete_sub {A} (m : gmap string A) ks k v :
  foldl (fun m0 k0 => delete k0 m0) m ks !! k = Some v -> m !! k = Some v.
Proof.
  revert m. induction ks as [|k0 ks IH]; intros m H; [exact H|].
  cbn [foldl] in H. apply IH in H. apply lookup_delete_Some in H. apply H.
Qed.

Lemma removeRules_inv ex h r ks :
  TreeInv ex h -> is_Some (nodes h !! r) ->
  TreeInv ex (removeRules h r ks) /\ Ext h (removeRules h r ks).
Proof.
  intros Hi [n Hn]. unfold removeRules. rewrite (node_some h r n Hn).
  set (n' := withRules n (foldl (fun m k => delete k m) (rules n) ks)).
  split; [|exact (Ext_setNode h r n n' Hn eq_refl eq_refl eq_refl)].
  apply (setNode_inv ex h r n n' Hi Hn eq_refl eq_refl).
  - intros k c Hk. exact (t_child _ h Hi r n k c Hn Hk).
  - intros b mb _ _ Hd Ha. apply Hd. exact (proj1 (attached_setNode h r n n' Hn eq_refl eq_refl eq_refl b) Ha).
  - intros k m j x Hk Hj. cbn [rules withRules n'] in Hk. apply foldl_delete_sub in Hk.
    exact (t_rule _ h Hi r n k m j x Hn Hk Hj).
Qed.

Lemma addRule_inv ex h y :
  TreeInv ex h ->
  TreeInv ex (mkHeap (nodes h) (<[next h := y]> (ruleset h)) (S (next h))) /\
  Ext h (mkHeap (nodes h) (<[next h := y]> (ruleset h)) (S (next h))).
Proof.
  intros Hi. split; [split; cbn [nodes ruleset next]|split].
  - intros a n Ha. pose proof (t_below _ h Hi a n Ha). lia.
  - exact (t_parent _ h Hi).
  - exact (t_child _ h Hi).
  - intros a n k m j x Ha Hk Hj. destruct (t_rule _ h Hi a n k m j x Ha Hk Hj) as [Hx Ho].
    split; [lia|]. refine (ruleOK_mono ex h _ a k x _ _ Ho); [|intros Hd; exact Hd].
    intros y0 Hy0. cbn [ruleset]. rewrite lookup_insert_ne by lia. exact Hy0.
  - intros x y0 Hx. destruct (decide (x = next h)) as [->|Hne]; [lia|].
    rewrite lookup_insert_ne in Hx by congruence. pose proof (t_rs_below _ h Hi x y0 Hx). lia.
  - intros a n Ha. exists n. auto.
  - intros x y0 Hx. cbn [ruleset]. pose proof (t_rs_below _ h Hi x y0 Hx).
    rewrite lookup_insert_ne by lia. exact Hx.
  - intros a _. reflexivity.
Qed.

Lemma addSimpleRule_inv ex h r p i :
  TreeInv ex h -> is_Some (nodes h !! r) ->
  let '(h', a) := addSimpleRule h r p i in
  TreeInv ex h' /\ Ext h h' /\ ruleOK ex h' r p a.
Proof.
  intros Hi [n Hn]. unfold addSimpleRule. rewrite (node_some h r n Hn).
  set (rs := match rules n !! p with Some _ => rules n | None => <[p := ∅]> (rules n) end).
  assert (Hrs : forall k m, rs !! k = Some m -> rules n !! k = Some m \/ m = ∅).
  { intros k m Hk. unfold rs in Hk. destruct (rules n !! p) eqn:Ep; [left; exact Hk|].
    destruct (decide (k = p)) as [->|Hne].
    - rewrite lookup_insert_eq in Hk. right. congruence.
    - rewrite lookup_insert_ne in Hk by congruence. left; exact Hk. }
  assert (Hrsp : rs !! p = Some (default ∅ (rs !! p))).
  { unfold rs. destruct (rules n !! p) eqn:Ep; [rewrite Ep; reflexivity|rewrite lookup_insert_eq; reflexivity]. }
  pose proof (attached_setNode h r n (withRules n rs) Hn eq_refl eq_refl eq_refl) as Hat1.
  assert (Hi1 : TreeInv ex (setNode h r (withRules n rs))).
  { apply (setNode_inv ex h r n (withRules n rs) Hi Hn eq_refl eq_refl).
    - intros k c Hk. exact (t_child _ h Hi r n k c Hn Hk).
    - intros b mb _ _ Hd Ha. apply Hd. exact (proj1 (Hat1 b) Ha).
    - intros k m j x Hk Hj. cbn [rules withRules] in Hk. destruct (Hrs k m Hk) as [Hk'| ->].
      + exact (t_rule _ h Hi r n k m j x Hn Hk' Hj).
      + rewrite lookup_empty in Hj. discriminate. }
  pose proof (Ext_setNode h r n (withRules n rs) Hn eq_refl eq_refl eq_refl) as E1.
  set (h1 := setNode h r (withRules n rs)) in Hi1, E1 |- *.
  assert (Hn1 : nodes h1 !! r = Some (withRules n rs)).
  { unfold h1, setNode. cbn [nodes]. apply lookup_insert_eq. }
  set (inner := default ∅ (rs !! p)) in Hrsp |- *.
  destruct (inner !! i) as [rule|] eqn:Hin.
  - split; [exact Hi1|]. split; [exact E1|].
    exact (proj2 (t_rule _ h1 Hi1 r _ p inner i rule Hn1 Hrsp Hin)).
  - destruct (addRule_inv ex h1 (mkRule (Some r) p i) Hi1) as [Hi2 E2].
    set (h2 := mkHeap _ _ _) in Hi2, E2 |- *.
    assert (Hn2 : nodes h2 !! r = Some (withRules n rs)) by exact Hn1.
    rewrite (node_some h2 r _ Hn2).
    set (n3 := withRules (withRules n rs) (<[p := <[i := next h1]> inner]> (rules (withRules n rs)))).
    pose proof (attached_setNode h2 r (withRules n rs) n3 Hn2 eq_refl eq_refl eq_refl) as Hat3.
    assert (Hi3 : TreeInv ex (setNode h2 r n3)).
    { apply (setNode_inv ex h2 r (withRules n rs) n3 Hi2 Hn2 eq_refl eq_refl).
      - intros k c Hk. exact (t_child _ h2 Hi2 r _ k c Hn2 Hk).
      - intros b mb _ _ Hd Ha. apply Hd. exact (proj1 (Hat3 b) Ha).
      - intros k m j x Hk Hj. cbn [rules withRules n3] in Hk. destruct (decide (k = p)) as [->|Hne].
        + rewrite lookup_insert_eq in Hk. injection Hk as <-. destruct (decide (j = i)) as [->|Hji].
          * rewrite lookup_insert_eq in Hj. injection Hj as <-. unfold h2; cbn [next ruleset].
            replace (next h1) with (next h) by reflexivity. split; [lia|]. eexists. split; [apply lookup_insert_eq|]. cbn. auto.
          * rewrite lookup_insert_ne in Hj by congruence.
            exact (t_rule _ h2 Hi2 r _ p inner j x Hn2 Hrsp Hj).
        + rewrite lookup_insert_ne in Hk by congruence. exact (t_rule _ h2 Hi2 r _ k m j x Hn2 Hk Hj). }
    split; [exact Hi3|].
    split; [exact (Ext_trans _ _ _ E1 (Ext_trans _ _ _ E2 (Ext_setNode h2 r _ n3 Hn2 eq_refl eq_refl eq_refl)))|].
    unfold setNode. eexists. cbn [ruleset h2]. split; [apply lookup_insert_eq|]. cbn. auto.
Qed.

Lemma foldl_inv {A C} (P : A -> Prop) (f : A -> C -> A) (l : list C) (a : A) :
  (forall a c, P a -> P (f a c)) -> P a -> P (foldl f a l).
Proof. intros Hf. revert a. induction l as [|c l IH]; intros a Ha; [exact Ha|]. apply IH, Hf, Ha. Qed.

Lemma foldl_inv_in {A C} (P : A -> Prop) (f : A -> C -> A) (l : list C) (a : A) :
  (forall a c, In c l -> P a -> P (f a c)) -> P a -> P (foldl f a l).
Proof.
  revert a. induction l as [|c l IH]; intros a Hf Ha; [exact Ha|].
  cbn [foldl]. apply IH; [intros a' c' Hc'; apply Hf; right; exact Hc'|]. apply Hf; [left; reflexivity|exact Ha].
Qed.

Lemma foldl_pair_inv {A B C} (P : A -> Prop) (f : A * B -> C -> A * B) (l : list C) (acc : A * B) :
  (forall acc c, P acc.1 -> P (f acc c).1) -> P acc.1 -> P (foldl f acc l).1.
Proof. intros Hf. revert acc. induction l as [|c l IH]; intros acc Ha; [exact Ha|]. apply IH, Hf, Ha. Qed.

Lemma move_inv ex fuel h1 r r2 pre pos (b : bool) :
  (forall h r p i, TreeInv ex h -> is_Some (nodes h !! r) ->
     TreeInv ex (fst (add fuel h r p i)) /\ Ext h (fst (add fuel h r p i))) ->
  TreeInv ex h1 -> is_Some (nodes h1 !! r2) ->
  let hc := (if b then h1 else
                    let '(h', candidates) :=
                      foldl (fun '(hc, cands) (kv : string * gmap string nat) =>
                               let '(rp, rls) := kv in
                               if HasPrefix rp pre then
                                 let hc' := foldl (fun hh (iv : string * nat) =>
                                                    fst (add fuel hh r2 (sliceFrom rp pos)
                                                              (ruleId hh iv.2)))
                                                  hc (map_to_list rls) in
                                 (hc', app cands [rp])
                               else (hc, cands))
                            (h1, []) (map_to_list (rules (node h1 r))) in
                    removeRules h' r2 candidates) in
  TreeInv ex hc /\ Ext h1 hc /\ is_Some (nodes hc !! r2).
Proof.
  intros IH Hi1 Hm hc. unfold hc; clear hc.
  set (P := fun hc => TreeInv ex hc /\ Ext h1 hc /\ is_Some (nodes hc !! r2)).
  change (P (if b then h1 else
                    let '(h', candidates) :=
                      foldl (fun '(hc, cands) (kv : string * gmap string nat) =>
                               let '(rp, rls) := kv in
                               if HasPrefix rp pre then
                                 let hc' := foldl (fun hh (iv : string * nat) =>
                                                    fst (add fuel hh r2 (sliceFrom rp pos)
                                                              (ruleId hh iv.2)))
                                                  hc (map_to_list rls) in
                                 (hc', app cands [rp])
                               else (hc, cands))
                            (h1, []) (map_to_list (rules (node h1 r))) in
                    removeRules h' r2 candidates)).
  destruct b; [split; [exact Hi1|split; [apply Ext_refl|exact Hm]]|].
  match goal with |- context [foldl ?f ?a ?l] =>
    pose proof (foldl_pair_inv P f l a) as Hf; destruct (foldl f a l) as [h' cands] end.
  destruct Hf as (Hi' & E' & Hs').
  - intros [hc cands0] [rp rls] HP. cbn beta iota. destruct (HasPrefix rp _); cbn [fst]; [|exact HP].
    apply foldl_inv; [|exact HP]. intros hh iv (Hh & Eh & Sh).
    destruct (IH hh r2 (sliceFrom rp pos) (ruleId hh iv.2) Hh Sh) as [Hh' Eh'].
    split; [exact Hh'|]. split; [exact (Ext_trans _ _ _ Eh Eh')|exact (Ext_some _ _ _ Eh' Sh)].
  - split; [exact Hi1|]. split; [apply Ext_refl|exact Hm].
  - destruct (removeRules_inv ex h' r2 cands Hi' Hs') as [Hi'' E''].
    split; [exact Hi''|]. split; [exact (Ext_trans _ _ _ E' E'')|exact (Ext_some _ _ _ E'' Hs')].
Qed.

Lemma add_inv ex fuel : forall h r p i,
  TreeInv ex h -> is_Some (nodes h !! r) ->
  TreeInv ex (fst (add fuel h r p i)) /\ Ext h (fst (add fuel h r p i)).
Proof.
  induction fuel as [|fuel IH]; intros h r p i Hi Hr.
  - split; [exact Hi|apply Ext_refl].
  - assert (Hsimple : TreeInv ex (fst (addSimpleRule h r p i)) /\ Ext h (fst (addSimpleRule h r p i))).
    { pose proof (addSimpleRule_inv ex h r p i Hi Hr) as Ha.
      destruct (addSimpleRule h r p i) as [h' a]. destruct Ha as (H1 & H2 & _). split; assumption. }
    cbn [add]. destruct (Index p star) as [[|pos']|]; [exact Hsimple| |exact Hsimple].
    pose proof (obtainSubRouter_inv ex h r (sliceTo p (S pos')) Hi Hr) as Ho.
    destruct (obtainSubRouter h r (sliceTo p (S pos'))) as [[h1 r2] b].
    destruct Ho as (Hi1 & E1 & _ & m & Hm & _ & _).
    match goal with |- context [add fuel ?h2 r2 ?q i] =>
      pose proof (move_inv ex fuel h1 r r2 (sliceTo p (S pos')) (S pos') b IH Hi1 (ex_intro _ m Hm)) as HP2;
      change (TreeInv ex h2 /\ Ext h1 h2 /\ is_Some (nodes h2 !! r2)) in HP2;
      destruct HP2 as (Hi2 & E2 & S2);
      destruct (IH h2 r2 q i Hi2 S2) as [Hi3 E3] end.
    split; [exact Hi3|exact (Ext_trans _ _ _ E1 (Ext_trans _ _ _ E2 E3))].
Qed.

Lemma NodesKept_refl h : NodesKept h h.
Proof. intros a n Ha. eauto. Qed.

Lemma NodesKept_trans h1 h2 h3 : NodesKept h1 h2 -> NodesKept h2 h3 -> NodesKept h1 h3.
Proof.
  intros E1 E2 a n Ha. destruct (E1 a n Ha) as (n2 & H2 & P2 & Q2).
  destruct (E2 a n2 H2) as (n3 & H3 & P3 & Q3). exists n3. split; [exact H3|]. split; congruence.
Qed.

Lemma NodesKept_some h h' a : NodesKept h h' -> is_Some (nodes h !! a) -> is_Some (nodes h' !! a).
Proof. intros E [n Ha]. destruct (E a n Ha) as (n' & H & _). eauto. Qed.

Lemma setRule_none_inv ex h x y :
  TreeInv ex h -> ruleset h !! x = Some y -> (router y = None \/ router y = ex) ->
  TreeInv ex (setRule h x (mkRule None (path y) (id y))).
Proof.
  intros Hi Hx Hry. split; cbn [setRule nodes next ruleset].
  - exact (t_below _ h Hi).
  - exact (t_parent _ h Hi).
  - exact (t_child _ h Hi).
  - intros a n k m j x0 Ha Hk Hj. destruct (t_rule _ h Hi a n k m j x0 Ha Hk Hj) as [Hlt (y1 & Hy1 & Hp1 & Ho1)].
    split; [exact Hlt|]. unfold ruleOK. change (attached (setRule h x (mkRule None (path y) (id y))) a)
      with (attached h a).
    destruct (decide (x0 = x)) as [->|Hne].
    + rewrite Hx in Hy1. injection Hy1 as <-. exists (mkRule None (path y) (id y)).
      cbn [ruleset setRule]. split; [apply lookup_insert_eq|]. cbn [path router]. split; [exact Hp1|].
      right. split; [reflexivity|]. destruct Ho1 as [Ho1|(_ & Ho1)]; [|exact Ho1].
      left. destruct Hry as [Hry|Hry]; congruence.
    + exists y1. cbn [ruleset setRule]. rewrite lookup_insert_ne by congruence. auto.
  - intros x0 y0 Hx0. destruct (decide (x0 = x)) as [->|Hne].
    + exact (t_rs_below _ h Hi x y Hx).
    + rewrite lookup_insert_ne in Hx0 by congruence. exact (t_rs_below _ h Hi x0 y0 Hx0).
Qed.

Lemma attached_shrink h a n n' :
  nodes h !! a = Some n -> parent n' = parent n -> prefix n' = prefix n ->
  (forall k c, children n' !! k = Some c -> children n !! k = Some c) ->
  forall b, attached (setNode h a n') b -> attached h b.
Proof.
  intros Ha Hp Hq Hc b. unfold attached.
  assert (Hpq : forall c, parent (node (setNode h a n') c) = parent (node h c) /\
                          prefix (node (setNode h a n') c) = prefix (node h c)).
  { intros c. rewrite node_setNode_dec. destruct (decide (c = a)) as [->|]; [|auto].
    rewrite (node_some h a n Ha). auto. }
  destruct (Hpq b) as (-> & ->). destruct (parent (node h b)) as [p|]; [|auto].
  rewrite node_setNode_dec. destruct (decide (p = a)) as [->|]; [|auto].
  rewrite (node_some h a n Ha). apply Hc.
Qed.

Lemma removeSubRouter_inv ex h par pre :
  TreeInv ex h -> is_Some (nodes h !! par) ->
  TreeInv ex (removeSubRouter h par pre) /\ NodesKept h (removeSubRouter h par pre) /\
  children (node (removeSubRouter h par pre) par) !! pre = None.
Proof.
  intros Hi [np Hp]. unfold removeSubRouter. rewrite (node_some h par np Hp).
  set (n' := withChildren np (delete pre (children np))).
  assert (Hc : forall k c, children n' !! k = Some c -> children np !! k = Some c).
  { intros k c Hk. cbn [n' children withChildren] in Hk. apply lookup_delete_Some in Hk. apply Hk. }
  split; [|split].
  - apply (setNode_inv ex h par np n' Hi Hp eq_refl eq_refl).
    + intros k c Hk. exact (t_child _ h Hi par np k c Hp (Hc k c Hk)).
    + intros b mb _ _ Hd Ha. apply Hd. exact (attached_shrink h par np n' Hp eq_refl eq_refl Hc b Ha).
    + intros k m j x Hk Hj. exact (t_rule _ h Hi par np k m j x Hp Hk Hj).
  - exact (setNode_node h par np n' Hp eq_refl eq_refl).
  - rewrite node_setNode. cbn [n' children withChildren]. apply lookup_delete_eq.
Qed.

Lemma removeRule_inv ex h r x :
  TreeInv ex h -> TreeInv ex (removeRule h r x) /\ NodesKept h (removeRule h r x).
Proof.
  intros Hi. unfold removeRule. destruct (nodes h !! r) as [n|] eqn:Hn.
  - rewrite (node_some h r n Hn). destruct (rules n !! path x) as [rls|] eqn:Hk;
      [|split; [exact Hi|apply NodesKept_refl]].
    set (n' := withRules n (<[path x := delete (id x) rls]> (rules n))).
    split; [|exact (setNode_node h r n n' Hn eq_refl eq_refl)].
    apply (setNode_inv ex h r n n' Hi Hn eq_refl eq_refl).
    + intros k c Hc. exact (t_child _ h Hi r n k c Hn Hc).
    + intros b mb _ _ Hd Ha. apply Hd.
      exact (proj1 (attached_setNode h r n n' Hn eq_refl eq_refl eq_refl b) Ha).
    + intros k m j x0 Hk' Hj. cbn [n' rules withRules] in Hk'. destruct (decide (k = path x)) as [->|Hne].
      * rewrite lookup_insert_eq in Hk'. injection Hk' as <-. apply lookup_delete_Some in Hj as [_ Hj].
        exact (t_rule _ h Hi r n (path x) rls j x0 Hn Hk Hj).
      * rewrite lookup_insert_ne in Hk' by congruence. exact (t_rule _ h Hi r n k m j x0 Hn Hk' Hj).
  - unfold node. rewrite Hn. cbn [default emptyRouter rules]. rewrite lookup_empty.
    split; [exact Hi|apply NodesKept_refl].
Qed.

Lemma minify_inv h r :
  TreeInv None h -> TreeInv None (minify h r) /\ NodesKept h (minify h r).
Proof.
  intros Hi. unfold minify. destruct (nodes h !! r) as [n|] eqn:Hn;
    [|unfold node; rewrite Hn; split; [exact Hi|apply NodesKept_refl]].
  rewrite (node_some h r n Hn). destruct (parent n) as [par|] eqn:Hpar;
    [|split; [exact Hi|apply NodesKept_refl]].
  destruct (hasSubRouters h r || hasWildcardRules h r); [split; [exact Hi|apply NodesKept_refl]|].
  destruct (t_parent _ h Hi r n par Hn Hpar) as [_ Spar].
  set (RS := fun hc => forall x y0, ruleset h !! x = Some y0 -> exists y', ruleset hc !! x = Some y' /\
               path y' = path y0 /\ (router y' = router y0 \/ router y' = None)).
  set (Q := fun hc => TreeInv (Some r) hc /\ NodesKept h hc /\ RS hc).
  match goal with |- context [removeSubRouter (foldl ?f ?a ?l) par _] =>
    assert (HQ : Q (foldl f a l)); [|set (hf := foldl f a l) in *] end.
  2:{ destruct HQ as (Hif & Nf & _).
      destruct (removeSubRouter_inv (Some r) hf par (prefix n) Hif (NodesKept_some _ _ _ Nf Spar))
        as (Hi2 & N2 & C2).
      set (h2 := removeSubRouter hf par (prefix n)) in *.
      split; [|exact (NodesKept_trans _ _ _ Nf N2)].
      apply (TreeInv_drop r h2 Hi2).
      destruct (NodesKept_trans _ _ _ Nf N2 r n Hn) as (n2 & Hn2 & P2 & Q2).
      unfold attached. rewrite (node_some h2 r n2 Hn2), P2, Hpar, Q2, C2. discriminate. }
  apply foldl_inv_in.
  2:{ split; [apply TreeInv_weaken, Hi|]. split; [apply NodesKept_refl|].
      intros x y0 Hx. exists y0. auto. }
  intros hh [k m] Hkm HQh. cbn [snd]. apply in_map_to_list_inv in Hkm.
  apply foldl_inv_in; [|exact HQh].
  intros hh' [path0 rule] Hiv (Hi' & N' & R'). apply in_map_to_list_inv in Hiv.
  cbn beta iota.
  destruct (add_inv (Some r) (S (String.length (prefix n ++ path0) + weight hh')) hh' par
              (prefix n ++ path0) (ruleId hh' rule) Hi' (NodesKept_some _ _ _ N' Spar)) as [Hi1 E1].
  unfold router_add.
  set (h1 := fst (add _ hh' par (prefix n ++ path0) (ruleId hh' rule))) in Hi1, E1 |- *.
  assert (Q1 : Q h1).
  { split; [exact Hi1|]. split; [exact (NodesKept_trans _ _ _ N' (e_node _ _ E1))|].
    intros x y0 Hx. destruct (R' x y0 Hx) as (y' & Hy' & P' & O'). exists y'.
    split; [exact (e_rule _ _ E1 x y' Hy')|auto]. }
  destruct (ruleset h1 !! rule) as [x|] eqn:Hx; [|exact Q1].
  destruct (t_rule _ h Hi r n k m path0 rule Hn Hkm Hiv) as [_ (y0 & Hy0 & _ & Ho0)].
  destruct Q1 as (Qi & QN & QR).
  destruct (QR rule y0 Hy0) as (y' & Hy' & P' & O'). rewrite Hx in Hy'. injection Hy' as <-.
  split; [|split].
  - apply setRule_none_inv; [exact Qi|exact Hx|].
    destruct O' as [O'|O']; [|left; exact O'].
    destruct Ho0 as [Ho0|(Ho0 & _)]; [right; congruence|left; congruence].
  - exact QN.
  - intros x0 y1 Hx0. destruct (QR x0 y1 Hx0) as (y2 & Hy2 & P2 & O2).
    destruct (decide (x0 = rule)) as [->|Hne].
    + rewrite Hy0 in Hx0. injection Hx0 as <-. exists (mkRule None (path x) (id x)).
      cbn [setRule ruleset]. split; [apply lookup_insert_eq|]. cbn [path router]. auto.
    + exists y2. cbn [setRule ruleset]. rewrite lookup_insert_ne by congruence. auto.
Qed.
Lemma Index_lt p c k : Index p c = Some k -> k < String.length p.
Proof.
  revert k. induction p as [|a p IH]; intros k; cbn; [discriminate|].
  destruct (Ascii.eqb a c); [intros [= <-]; lia|].
  destruct (Index p c) as [n|]; [intros [= <-]; specialize (IH n eq_refl); lia|discriminate].
Qed.

Lemma length_substring n m s : n + m <= String.length s -> String.length (substring n m s) = m.
Proof.
  revert n m. induction s as [|a s IH]; intros n m Hl; cbn in Hl.
  - destruct n, m; cbn; lia.
  - destruct n as [|n].
    + destruct m as [|m]; cbn; [reflexivity|]. rewrite IH; lia.
    + cbn. apply IH. lia.
Qed.

Lemma length_sliceFrom p k : k <= String.length p -> String.length (sliceFrom p k) = String.length p - k.
Proof. intros Hk. unfold sliceFrom. apply length_substring. lia. Qed.

Lemma sliceTo_sliceFrom p k : sliceTo p k ++ sliceFrom p k = p.
Proof.
  unfold sliceTo, sliceFrom. revert k. induction p as [|a p IH]; intros k.
  - destruct k; reflexivity.
  - destruct k as [|k].
    + rewrite Nat.sub_0_r, substring_full. reflexivity.
    + cbn [substring String.length String.append]. rewrite Nat.sub_succ, IH. reflexivity.
Qed.

Lemma string_app_assoc (a b c : string) : (a ++ b) ++ c = a ++ (b ++ c).
Proof. induction a as [|x a IH]; cbn; [reflexivity|rewrite IH; reflexivity]. Qed.

Lemma remove_inv h a h' :
  TreeInv None h -> remove h a = Some h' -> TreeInv None h' /\ NodesKept h h'.
Proof.
  intros Hi. unfold remove. destruct (ruleset h !! a) as [x|]; [|discriminate].
  destruct (router x) as [r|]; [|discriminate]. intros [= <-].
  destruct (removeRule_inv None h r x Hi) as [Hi1 N1].
  destruct (HasPrefix (path x) "*"); [|split; assumption].
  destruct (minify_inv (removeRule h r x) r Hi1) as [Hi2 N2].
  split; [exact Hi2|exact (NodesKept_trans _ _ _ N1 N2)].
Qed.

Lemma newHeap_inv : TreeInv None newHeap.
Proof.
  assert (Hn : forall a n, nodes newHeap !! a = Some n -> a = 0 /\ n = emptyRouter).
  { intros a n Ha. cbn [newHeap nodes] in Ha. apply lookup_singleton_Some in Ha. destruct Ha as [<- <-]. auto. }
  split.
  - intros a n Ha. destruct (Hn a n Ha) as [-> _]. cbn. lia.
  - intros a n b Ha Hb. destruct (Hn a n Ha) as [_ ->]. discriminate.
  - intros a n k c Ha Hk. destruct (Hn a n Ha) as [_ ->]. cbn in Hk. rewrite lookup_empty in Hk. discriminate.
  - intros a n k m j x Ha Hk. destruct (Hn a n Ha) as [_ ->]. cbn in Hk. rewrite lookup_empty in Hk. discriminate.
  - intros x y Hx. cbn in Hx. rewrite lookup_empty in Hx. discriminate.
Qed.

Lemma routerReach_inv h : routerReach h -> TreeInv None h /\ is_Some (nodes h !! 0).
Proof.
  induction 1 as [|h p i _ [IH S0]|h a h' _ [IH S0] Hr].
  - split; [exact newHeap_inv|cbn; eauto].
  - unfold router_add. destruct (add_inv None (S (String.length p + weight h)) h 0 p i IH S0) as [Hi E].
    split; [exact Hi|exact (Ext_some _ _ _ E S0)].
  - destruct (remove_inv h a h' IH Hr) as [Hi N].
    split; [exact Hi|exact (NodesKept_some _ _ _ N S0)].
Qed.

Lemma chain_ext ex h h' : TreeInv ex h -> NodesKept h h' ->
  forall f a, is_Some (nodes h !! a) -> prefixChain f h' (Some a) = prefixChain f h (Some a).
Proof.
  intros Hi E f. induction f as [|f IH]; intros a [n Ha]; [reflexivity|].
  destruct (E a n Ha) as (n' & Ha' & Hp & Hq). cbn [prefixChain].
  rewrite (node_some h' a n' Ha'), (node_some h a n Ha), Hp, Hq.
  destruct (parent n) as [b|] eqn:Hb.
  - rewrite IH; [reflexivity|]. exact (proj2 (t_parent _ h Hi a n b Ha Hb)).
  - destruct f; reflexivity.
Qed.

Lemma chain_fuel ex h : TreeInv ex h ->
  forall f g a, is_Some (nodes h !! a) -> a < f -> a < g ->
  prefixChain f h (Some a) = prefixChain g h (Some a).
Proof.
  intros Hi f. induction f as [|f IH]; intros g a [n Ha] Hf Hg; [lia|].
  destruct g as [|g]; [lia|]. cbn [prefixChain]. rewrite (node_some h a n Ha).
  destruct (parent n) as [b|] eqn:Hb.
  - destruct (t_parent _ h Hi a n b Ha Hb) as [Hba Sb]. rewrite (IH g b Sb) by lia. reflexivity.
  - destruct f, g; reflexivity.
Qed.

Lemma add_string fuel : forall h r p i,
  TreeInv None h -> is_Some (nodes h !! r) -> attached h r -> String.length p < fuel ->
  let '(h', a) := add fuel h r p i in
  exists y r', ruleset h' !! a = Some y /\ router y = Some r' /\ is_Some (nodes h' !! r') /\
    prefixChain (S r') h' (Some r') ++ path y = prefixChain (S r) h (Some r) ++ p.
Proof.
  induction fuel as [|fuel IH]; intros h r p i Hi Hr Hat Hl; [cbn in Hl; lia|].
  assert (Hsimple : let '(h', a) := addSimpleRule h r p i in
    exists y r', ruleset h' !! a = Some y /\ router y = Some r' /\ is_Some (nodes h' !! r') /\
      prefixChain (S r') h' (Some r') ++ path y = prefixChain (S r) h (Some r) ++ p).
  { pose proof (addSimpleRule_inv None h r p i Hi Hr) as Ha. destruct (addSimpleRule h r p i) as [h' a].
    destruct Ha as (Hi' & E' & y & Hy & Hpy & Hry).
    assert (Hry' : router y = Some r).
    { destruct Hry as [Hry|(_ & [Hex|Hd])]; [exact Hry|discriminate|].
      exfalso. apply Hd. exact (proj2 (e_att _ _ E' r Hr) Hat). }
    exists y, r.
    split; [exact Hy|]. split; [exact Hry'|]. split; [exact (Ext_some _ _ _ E' Hr)|].
    rewrite Hpy, (chain_ext None h h' Hi (e_node _ _ E') (S r) r Hr). reflexivity. }
  cbn [add]. destruct (Index p star) as [[|pos']|] eqn:Hx; [exact Hsimple| |exact Hsimple].
  pose proof (Index_lt _ _ _ Hx) as Hlt.
  pose proof (obtainSubRouter_inv None h r (sliceTo p (S pos')) Hi Hr) as Ho.
  destruct (obtainSubRouter h r (sliceTo p (S pos'))) as [[h1 r2] ex].
  destruct Ho as (Hi1 & E1 & Hat1 & m & Hm & Hpm & Hqm).
  match goal with |- context [add fuel ?h2 r2 _ i] => set (H2 := h2) end.
  pose proof (move_inv None fuel h1 r r2 (sliceTo p (S pos')) (S pos') ex (add_inv None fuel) Hi1
    (ex_intro _ m Hm)) as HP2.
  change (TreeInv None H2 /\ Ext h1 H2 /\ is_Some (nodes H2 !! r2)) in HP2.
  destruct HP2 as (Hi2 & E2 & S2).
  assert (Hat2 : attached H2 r2) by exact (proj2 (e_att _ _ E2 r2 (ex_intro _ m Hm)) Hat1).
  assert (Hq : String.length (sliceFrom p (S pos')) < fuel) by (rewrite length_sliceFrom; lia).
  pose proof (IH H2 r2 (sliceFrom p (S pos')) i Hi2 S2 Hat2 Hq) as IH2.
  assert (Hc : prefixChain (S r2) H2 (Some r2) ++ sliceFrom p (S pos') = prefixChain (S r) h (Some r) ++ p).
  { destruct (e_node _ _ E2 r2 m Hm) as (m' & Hm' & Hp' & Hq').
    cbn [prefixChain]. rewrite (node_some H2 r2 m' Hm'), Hp', Hpm, Hq', Hqm.
    assert (Sr : is_Some (nodes H2 !! r)) by exact (Ext_some _ _ _ (Ext_trans _ _ _ E1 E2) Hr).
    assert (Hrr : r < r2) by (refine (proj1 (t_parent _ H2 Hi2 r2 m' r Hm' _)); rewrite Hp'; exact Hpm).
    rewrite (chain_fuel None H2 Hi2 r2 (S r) r Sr Hrr ltac:(lia)).
    rewrite (chain_ext None h H2 Hi (e_node _ _ (Ext_trans _ _ _ E1 E2)) (S r) r Hr).
    rewrite string_app_assoc, sliceTo_sliceFrom. reflexivity. }
  destruct (add fuel H2 r2 (sliceFrom p (S pos')) i) as [h' a].
  destruct IH2 as (y & r' & Hy & Hry & Sr' & Hch).
  exists y, r'. rewrite <- Hc. auto.
Qed.

(** Rule.String round trip: in any heap built from [newRouter()] by
    [Add] and [Rule.Remove] (merges included), the rule that [add] returns
    for path [p] at an attached router [r] prints as the prefixes from the
    root down to [r] followed by [p], wherever [add] stores it (at [r] or
    in a sub-router made for a wildcard segment); at the root that is [p]. *)
Theorem add_rule_string h r n p i :
  routerReach h -> nodes h !! r = Some n -> attached h r ->
  ruleString (fst (router_add h r p i)) (snd (router_add h r p i)) = prefixChain (next h) h (Some r) ++ p.
Proof.
  intros Hh Hr Hat. pose proof (proj1 (routerReach_inv h Hh)) as Hi.
  assert (Sr : is_Some (nodes h !! r)) by eauto.
  unfold router_add.
  pose proof (add_inv None (S (String.length p + weight h)) h r p i Hi Sr) as [Hi' _].
  pose proof (add_string (S (String.length p + weight h)) h r p i Hi Sr Hat ltac:(lia)) as Ha.
  destruct (add (S (String.length p + weight h)) h r p i) as [h' a]. cbn [fst snd] in *.
  destruct Ha as (y & r' & Hy & Hry & Sr' & Hch).
  unfold ruleString. rewrite Hy, Hry.
  destruct Sr' as [n' Hn'].
  rewrite (chain_fuel None h' Hi' (next h') (S r') r' (ex_intro _ n' Hn') (t_below _ h' Hi' r' n' Hn') ltac:(lia)), Hch.
  rewrite (chain_fuel None h Hi (S r) (next h) r Sr ltac:(lia) (t_below _ h Hi r n Hr)). reflexivity.
Qed.

Lemma add_rule_string_witness :
  routerReach rh3 /\ nodes rh3 !! 0 = Some (node rh3 0) /\ attached rh3 0 /\
  ruleString (fst (router_add rh3 0 "/a/*/c/*" "3")) (snd (router_add rh3 0 "/a/*/c/*" "3"))
    = "/a/*/c/*".
Proof.
  assert (R : routerReach rh3).
  { apply (rr_remove (fst rh2) (snd rh2)); [apply rr_add, rr_add, rr_new|vm_compute; reflexivity]. }
  assert (N0 : nodes rh3 !! 0 = Some (node rh3 0)) by (vm_compute; reflexivity).
  assert (A0 : attached rh3 0) by (vm_compute; exact I).
  split; [exact R|]. split; [exact N0|]. split; [exact A0|].
  rewrite (add_rule_string rh3 0 (node rh3 0) "/a/*/c/*" "3" R N0 A0). vm_compute. reflexivity.
Defined.

End RouterStringProofs.

Module HandshakeProofs.

Import SessionModel PoolModel ServerModel ServerVerbs PoolProofs.

Lemma genLoop_exhausted gen vals limit : forall calls value,
  0 < limit ->
  let '(v, l, c) := genLoop gen vals calls limit value in
  l = 0 -> vals !! v <> None.
Proof.
  induction limit as [|l IH]; intros calls value Hl; [lia|]. cbn [genLoop].
  destruct (vals !! gen calls) eqn:E; [|discriminate].
  destruct l as [|l].
  - cbn [genLoop]. intros _. rewrite E. discriminate.
  - apply IH. lia.
Qed.

(** [handshake] always stores a new session under the id that [get]
    returned and leaves the other sessions as they were.  When [get]
    reports [err] (every retry collided) that id is one the pool already
    holds, so the session of a live client is replaced; without [err] the
    id was not in the pool. *)
Theorem handshake_replaces_session breg st gen now :
  let '(st', cid, err) := handshake breg st gen now in
  sessions st' !! cid = Some newSession /\
  (forall k, k <> cid -> sessions st' !! k = sessions st !! k) /\
  (err = true -> values (names st) !! cid <> None) /\
  (err = false -> values (names st) !! cid = None).
Proof.
  unfold handshake, get.
  pose proof (genLoop_spec gen (values (names st)) MAX_ID_GEN_RETRY 0 "") as Hs.
  pose proof (genLoop_exhausted gen (values (names st)) MAX_ID_GEN_RETRY 0 ""
                ltac:(unfold MAX_ID_GEN_RETRY; lia)) as Hx.
  destruct (genLoop gen (values (names st)) 0 MAX_ID_GEN_RETRY "") as [[v l] c].
  destruct Hs as (_ & _ & Hv). cbn [sessions].
  split; [apply lookup_insert_eq|].
  split; [intros k Hk; apply lookup_insert_ne; congruence|].
  split.
  - intros E. apply Hx. apply Nat.eqb_eq. exact E.
  - intros E. apply Hv. apply Nat.eqb_neq. exact E.
Qed.

End HandshakeProofs.
